(** * garray: ordered containers of the gf framework

    A shallow embedding of [g/container/garray/garray_normal_int.go]
    (type [IntArray]) and [g/container/garray/garray_sorted_string.go]
    (type [SortedStringArray]), and the properties of their operations.

    Conventions of the embedding:
    - a Go [int] is a 64-bit two's complement integer, modelled as a [Z]
      with the wrap-around of every arithmetic operation written out
      ([Go.add], [Go.sub], [Go.neg]);
    - a Go slice is the list of its elements; [len] is its length.  The
      capacity is not modelled: every slice expression of the two files
      has its upper bound at most [len], so bounds are checked against
      [len].  The heap is unbounded: [make] only refuses a negative size;
    - a run-time panic is an explicit outcome ([Go.Panic]), as is a loop
      that has not finished within the fuel its caller gives it
      ([Go.OutOfFuel]); the entry points give enough fuel, which the
      theorems show by exhibiting the returned value;
    - the read/write mutex [mu] is represented by its mode only
      ([mu_safe]): the mode decides whether [Range] and [SubSlice] copy;
    - [grand.Perm] is a random draw, passed to [Rands] as an argument. *)

From stdpp Require Import base numbers list strings sorting gmap.
From Stdlib Require Import ZArith Lia.

Local Open Scope Z_scope.

(** ** The Go run-time: integers, slices, panics *)

Module Go.

Inductive panic : Set :=
| IndexOutOfRange
| SliceBoundsOutOfRange
| MakeLenOutOfRange.

Inductive outcome (A : Type) : Type :=
| Ret (a : A)
| Panic (p : panic)
| OutOfFuel.
Arguments Ret {A} a.
Arguments Panic {A} p.
Arguments OutOfFuel {A}.

#[global] Instance outcome_ret : MRet outcome := @Ret.
#[global] Instance outcome_bind : MBind outcome := fun A B f m =>
  match m with
  | Ret a => f a
  | Panic p => Panic p
  | OutOfFuel => OutOfFuel
  end.

(** 64-bit [int]. *)
Definition min_int : Z := - 2 ^ 63.
Definition max_int : Z := 2 ^ 63 - 1.
Definition wrap (z : Z) : Z := (z + 2 ^ 63) `mod` 2 ^ 64 - 2 ^ 63.
Definition add (x y : Z) : Z := wrap (x + y).
Definition sub (x y : Z) : Z := wrap (x - y).
Definition neg (x : Z) : Z := wrap (- x).

(** The zero value of an element type, what [make] fills with. *)
Class ZeroValue (A : Type) := zero_value : A.
#[global] Instance int_zero : ZeroValue Z := 0.
#[global] Instance string_zero : ZeroValue string := EmptyString.

Section slices.
Context {A : Type}.

Definition len (s : list A) : Z := Z.of_nat (length s).

(** [s[i]] *)
Definition index (s : list A) (i : Z) : outcome A :=
  if i <? 0 then Panic IndexOutOfRange
  else match s !! Z.to_nat i with
       | Some x => Ret x
       | None => Panic IndexOutOfRange
       end.

(** [s[i] = v] *)
Definition store (s : list A) (i : Z) (v : A) : outcome (list A) :=
  if (i <? 0) || (len s <=? i) then Panic IndexOutOfRange
  else Ret (<[Z.to_nat i := v]> s).

(** [s[lo:hi]] *)
Definition slice (s : list A) (lo hi : Z) : outcome (list A) :=
  if (lo <? 0) || (hi <? lo) || (len s <? hi) then Panic SliceBoundsOutOfRange
  else Ret (take (Z.to_nat (hi - lo)) (drop (Z.to_nat lo) s)).

(** [s[lo:]] and [s[:hi]] *)
Definition slice_from (s : list A) (lo : Z) : outcome (list A) :=
  slice s lo (len s).
Definition slice_to (s : list A) (hi : Z) : outcome (list A) :=
  slice s 0 hi.

(** [make([]A, n)] *)
Definition make `{ZeroValue A} (n : Z) : outcome (list A) :=
  if n <? 0 then Panic MakeLenOutOfRange
  else Ret (replicate (Z.to_nat n) zero_value).

(** [copy(dst, src)]: the contents of [dst] afterwards. *)
Definition copy (dst src : list A) : list A :=
  take (length dst) src ++ drop (length src) dst.
End slices.

End Go.

Import Go.

(** ** The mode of the mutex *)

Module rwmutex.
(** Modelled from the spec: [rwmutex.New(unsafe...)] of package
    [internal/rwmutex], whose source is not among the files embedded
    here.  The specification has containers "safe by default", and
    unsafe when the flag is passed as true.  The result is the mode
    that [IsSafe] reports. *)
Definition New (unsafe : list bool) : bool :=
  match unsafe with
  | u :: _ => negb u
  | [] => true
  end.
End rwmutex.

(** ** Operations that the source repeats verbatim per element type

    [Range], [SubSlice] and [Rands] have the same body in
    garray_normal_int.go (on [[]int]) and garray_sorted_string.go (on
    [[]string]); the body is written once here, over the element type,
    the mode of the mutex and the array of the receiver. *)

Module garray.
Section bodies.
Context {A : Type} `{!ZeroValue A}.

(** [Range(start, end...)] *)
Definition Range (safe : bool) (array : list A) (start : Z) (end_ : list Z)
  : outcome (list A) :=
  let offsetEnd := len array in
  let offsetEnd :=
    match end_ with
    | e0 :: _ => if e0 <? offsetEnd then e0 else offsetEnd
    | [] => offsetEnd
    end in
  if offsetEnd <? start then Ret []
  else
    let start := if start <? 0 then 0 else start in
    if safe then
      dst ← make (sub offsetEnd start);
      src ← slice array start offsetEnd;
      Ret (copy dst src)
    else slice array start offsetEnd.

(** [SubSlice(offset, length...)] *)
Definition SubSlice (safe : bool) (array : list A) (offset : Z)
    (length : list Z) : outcome (list A) :=
  let size := match length with l0 :: _ => l0 | [] => len array end in
  if len array <? offset then Ret []
  else
    let offset1 := if offset <? 0 then add (len array) offset else offset in
    if (offset <? 0) && (offset1 <? 0) then Ret []
    else
      let offset2 := if size <? 0 then add offset1 size else offset1 in
      let size1 := if size <? 0 then neg size else size in
      if (size <? 0) && (offset2 <? 0) then Ret []
      else
        let end_ := add offset2 size1 in
        let size2 := if len array <? end_
                     then sub (len array) offset2 else size1 in
        let end_ := if len array <? end_ then len array else end_ in
        if safe then
          s ← make size2;
          src ← slice_from array offset2;
          Ret (copy s src)
        else slice array offset2 end_.

(** [Rands(size)]; [perm] is the value of [grand.Perm(len(a.array))],
    ranged over by the loop. *)
Fixpoint Rands_loop (i : Z) (perm : list Z) (size : Z) (array n : list A)
  : outcome (list A) :=
  match perm with
  | [] => Ret n
  | v :: perm' =>
    x ← index array v;
    n' ← store n i x;
    if i =? sub size 1 then Ret n'
    else Rands_loop (add i 1) perm' size array n'
  end.

Definition Rands (array : list A) (size : Z) (perm : list Z)
  : outcome (list A) :=
  let size := if len array <? size then len array else size in
  n ← make size;
  Rands_loop 0 perm size array n.

(** [Get(index)] *)
Definition Get (array : list A) (index : Z) : outcome A :=
  Go.index array index.

(** [Remove(index)]: the removed item and the array left. *)
Definition Remove (array : list A) (index : Z) : outcome (A * list A) :=
  if index =? 0 then
    value ← Go.index array 0;
    rest ← slice_from array 1;
    Ret (value, rest)
  else if index =? sub (len array) 1 then
    value ← Go.index array index;
    rest ← slice_to array index;
    Ret (value, rest)
  else
    value ← Go.index array index;
    front ← slice_to array index;
    rear ← slice_from array (add index 1);
    Ret (value, front ++ rear).

(** [PopLeft()] *)
Definition PopLeft (array : list A) : outcome (A * list A) :=
  value ← Go.index array 0;
  rest ← slice_from array 1;
  Ret (value, rest).

(** [PopRight()] *)
Definition PopRight (array : list A) : outcome (A * list A) :=
  let index := sub (len array) 1 in
  value ← Go.index array index;
  rest ← slice_to array index;
  Ret (value, rest).

(** [PopLefts(size)]: the items popped and the array left. *)
Definition PopLefts (array : list A) (size : Z)
  : outcome (list A * list A) :=
  let length := len array in
  let size := if length <? size then length else size in
  value ← slice array 0 size;
  rest ← slice_from array size;
  Ret (value, rest).

(** [PopRights(size)] *)
Definition PopRights (array : list A) (size : Z)
  : outcome (list A * list A) :=
  let index := sub (len array) size in
  let index := if index <? 0 then 0 else index in
  value ← slice_from array index;
  rest ← slice_to array index;
  Ret (value, rest).

(** [PopRands(size)]: the items popped and the array left.  [intn k n]
    is the value of the [k]-th call of the loop to [grand.Intn],
    made with the argument [n]. *)
Fixpoint PopRands_loop (fuel : nat) (intn : nat → Z → Z) (call : nat)
    (i size : Z) (array out : list A) : outcome (list A * list A) :=
  if i <? size then
    match fuel with
    | O => OutOfFuel
    | S fuel' =>
      let index := intn call (len array) in
      x ← Go.index array index;
      out' ← store out i x;
      front ← slice_to array index;
      rear ← slice_from array (add index 1);
      PopRands_loop fuel' intn (S call) (add i 1) size (front ++ rear) out'
    end
  else Ret (out, array).

Definition PopRands (intn : nat → Z → Z) (array : list A) (size : Z)
  : outcome (list A * list A) :=
  let size := if len array <? size then len array else size in
  out ← make size;
  PopRands_loop (Z.to_nat size) intn 0 0 size array out.
End bodies.
End garray.

(** ** [IntArray] (garray_normal_int.go) *)

Module IntArray.

Record t : Type := mk { mu_safe : bool; array : list Z }.

Definition with_array (a : t) (arr : list Z) : t :=
  {| mu_safe := mu_safe a; array := arr |}.

(** [NewIntArrayFrom(array, unsafe...)] *)
Definition NewIntArrayFrom (arr : list Z) (unsafe : list bool) : t :=
  {| mu_safe := rwmutex.New unsafe; array := arr |}.

Definition Range (a : t) (start : Z) (end_ : list Z) : outcome (list Z) :=
  garray.Range (mu_safe a) (array a) start end_.

Definition SubSlice (a : t) (offset : Z) (length : list Z) : outcome (list Z) :=
  garray.SubSlice (mu_safe a) (array a) offset length.

(** [Unique()]: the inner loop over [j], then the outer loop over [i];
    [len(a.array)] is read again at every test.  Each round advances
    its counter and no round lengthens the array, so the length of the
    array at entry is fuel enough for either loop. *)
Fixpoint Unique_inner (fuel : nat) (i j : Z) (arr : list Z) : outcome (list Z) :=
  if j <? len arr then
    match fuel with
    | O => OutOfFuel
    | S fuel' =>
      x ← index arr i;
      y ← index arr j;
      if x =? y then
        front ← slice_to arr j;
        rear ← slice_from arr (add j 1);
        Unique_inner fuel' i (add j 1) (front ++ rear)
      else Unique_inner fuel' i (add j 1) arr
    end
  else Ret arr.

Fixpoint Unique_outer (fuel : nat) (i : Z) (arr : list Z) : outcome (list Z) :=
  if i <? sub (len arr) 1 then
    match fuel with
    | O => OutOfFuel
    | S fuel' =>
      arr' ← Unique_inner (length arr) i (add i 1) arr;
      Unique_outer fuel' (add i 1) arr'
    end
  else Ret arr.

Definition Unique (a : t) : outcome t :=
  arr ← Unique_outer (length (array a)) 0 (array a);
  Ret (with_array a arr).

(** [Fill(startIndex, num, value)]; the loop runs [bound - startIndex]
    rounds. *)
Fixpoint Fill_loop (fuel : nat) (i bound value : Z) (arr : list Z)
  : outcome (list Z) :=
  if i <? bound then
    match fuel with
    | O => OutOfFuel
    | S fuel' =>
      arr' ← (if sub (len arr) 1 <? i then Ret (arr ++ [value])
              else store arr i value);
      Fill_loop fuel' (add i 1) bound value arr'
    end
  else Ret arr.

Definition Fill (a : t) (startIndex num value : Z) : outcome t :=
  let startIndex := if startIndex <? 0 then 0 else startIndex in
  let bound := add startIndex num in
  arr ← Fill_loop (Z.to_nat (bound - startIndex)) startIndex bound value (array a);
  Ret (with_array a arr).

(** [Pad(size, value)]; the loop over [tmp] runs [n] rounds. *)
Fixpoint Pad_loop (fuel : nat) (i n value : Z) (tmp : list Z) : outcome (list Z) :=
  if i <? n then
    match fuel with
    | O => OutOfFuel
    | S fuel' =>
      tmp' ← store tmp i value;
      Pad_loop fuel' (add i 1) n value tmp'
    end
  else Ret tmp.

Definition Pad (a : t) (size value : Z) : outcome t :=
  let l := len (array a) in
  if (size =? 0) || ((0 <? size) && (size <? l))
     || ((size <? 0) && (neg l <? size))
  then Ret a
  else
    let n := if size <? 0 then neg size else size in
    let n := sub n l in
    tmp ← make n;
    tmp ← Pad_loop (Z.to_nat n) 0 n value tmp;
    if 0 <? size then Ret (with_array a (array a ++ tmp))
    else Ret (with_array a (tmp ++ array a)).

Definition Rands (a : t) (size : Z) (perm : list Z) : outcome (list Z) :=
  garray.Rands (array a) size perm.

(** [Get(index)] and [Set(index, value)] ([Set] is a keyword here, hence
    [Set_]) *)
Definition Get (a : t) (index : Z) : outcome Z := garray.Get (array a) index.

Definition Set_ (a : t) (index value : Z) : outcome t :=
  arr ← store (array a) index value;
  Ret (with_array a arr).

(** [SetArray(array)] *)
Definition SetArray (a : t) (arr : list Z) : t := with_array a arr.



(** [Sum()] *)
Definition Sum (a : t) : Z :=
  fold_left (fun sum v => add sum v) (array a) 0.

(** [InsertBefore(index, value)] and [InsertAfter(index, value)] *)
Definition InsertBefore (a : t) (index value : Z) : outcome t :=
  rear ← slice_from (array a) index;
  front ← slice (array a) 0 index;
  Ret (with_array a ((front ++ [value]) ++ rear)).

Definition InsertAfter (a : t) (index value : Z) : outcome t :=
  rear ← slice_from (array a) (add index 1);
  front ← slice (array a) 0 (add index 1);
  Ret (with_array a ((front ++ [value]) ++ rear)).

(** [Remove(index)] *)
Definition Remove (a : t) (index : Z) : outcome (Z * t) :=
  '(value, rest) ← garray.Remove (array a) index;
  Ret (value, with_array a rest).

(** [PushLeft(value...)], [PushRight(value...)], [Append(value...)] *)
Definition PushLeft (a : t) (value : list Z) : t :=
  with_array a (value ++ array a).

Definition PushRight (a : t) (value : list Z) : t :=
  with_array a (array a ++ value).

Definition Append (a : t) (value : list Z) : t :=
  with_array a (array a ++ value).

(** [PopLeft()], [PopRight()], [PopRands(size)], [PopLefts(size)],
    [PopRights(size)] *)
Definition PopLeft (a : t) : outcome (Z * t) :=
  '(value, rest) ← garray.PopLeft (array a);
  Ret (value, with_array a rest).

Definition PopRight (a : t) : outcome (Z * t) :=
  '(value, rest) ← garray.PopRight (array a);
  Ret (value, with_array a rest).

Definition PopRands (intn : nat → Z → Z) (a : t) (size : Z)
  : outcome (list Z * t) :=
  '(value, rest) ← garray.PopRands intn (array a) size;
  Ret (value, with_array a rest).

Definition PopLefts (a : t) (size : Z) : outcome (list Z * t) :=
  '(value, rest) ← garray.PopLefts (array a) size;
  Ret (value, with_array a rest).

Definition PopRights (a : t) (size : Z) : outcome (list Z * t) :=
  '(value, rest) ← garray.PopRights (array a) size;
  Ret (value, with_array a rest).

(** [Len()] *)
Definition Len (a : t) : Z := len (array a).

(** [Slice()]: a copy in safe mode, the array itself otherwise. *)
Definition Slice (a : t) : list Z :=
  if mu_safe a
  then copy (replicate (length (array a)) zero_value) (array a)
  else array a.

(** [Clone()] *)
Definition Clone (a : t) : t :=
  NewIntArrayFrom
    (copy (replicate (length (array a)) zero_value) (array a))
    [negb (mu_safe a)].

(** [Clear()] *)
Definition Clear (a : t) : t :=
  if 0 <? len (array a) then with_array a [] else a.

(** [Search(value)]: the loop over [index, v := range a.array], then
    the function; [Contains(value)]. *)
Fixpoint Search_loop (value index : Z) (arr : list Z) (result : Z) : Z :=
  match arr with
  | [] => result
  | v :: arr' =>
    if v =? value then index
    else Search_loop value (add index 1) arr' result
  end.

Definition Search (a : t) (value : Z) : Z :=
  if len (array a) =? 0 then -1
  else Search_loop value 0 (array a) (-1).

Definition Contains (a : t) (value : Z) : bool :=
  negb (Search a value =? -1).

(** [Shuffle()]; [perm] is the value of [grand.Perm(len(a.array))]. *)
Fixpoint Shuffle_loop (i : Z) (perm : list Z) (arr : list Z)
  : outcome (list Z) :=
  match perm with
  | [] => Ret arr
  | v :: perm' =>
    x ← index arr v;
    y ← index arr i;
    arr1 ← store arr i x;
    arr2 ← store arr1 v y;
    Shuffle_loop (add i 1) perm' arr2
  end.

Definition Shuffle (a : t) (perm : list Z) : outcome t :=
  arr ← Shuffle_loop 0 perm (array a);
  Ret (with_array a arr).

(** [Reverse()]; every round brings [i] and [j] closer, so the length
    is fuel enough. *)
Fixpoint Reverse_loop (fuel : nat) (i j : Z) (arr : list Z)
  : outcome (list Z) :=
  if i <? j then
    match fuel with
    | O => OutOfFuel
    | S fuel' =>
      x ← index arr j;
      y ← index arr i;
      arr1 ← store arr i x;
      arr2 ← store arr1 j y;
      Reverse_loop fuel' (add i 1) (sub j 1) arr2
    end
  else Ret arr.

Definition Reverse (a : t) : outcome t :=
  arr ← Reverse_loop (length (array a)) 0 (sub (len (array a)) 1) (array a);
  Ret (with_array a arr).

(** [CountValues()]: [m[v]++] on a map that reads 0 at a missing key. *)
Definition CountValues (a : t) : gmap Z Z :=
  fold_left (fun m v => <[v := add (default 0 (m !! v)) 1]> m) (array a) ∅.

End IntArray.

(** ** [SortedStringArray] (garray_sorted_string.go) *)

(** [strings.Compare] of the Go standard library: the three-way
    lexicographic comparison of two strings byte by byte. *)
Definition strings_Compare (v1 v2 : string) : Z :=
  match String.compare v1 v2 with
  | Eq => 0
  | Lt => -1
  | Gt => 1
  end.

(** [sort.Strings] of the Go standard library, by what it computes: the
    arrangement of the strings in increasing order.  That arrangement is
    unique, the order of strings being total and two strings that
    compare equal being the same string, so the algorithm that produces
    it is not observable; a merge sort is used here. *)
Definition strings_le : relation string :=
  fun x y => strings_Compare x y ≤ 0.
#[global] Instance strings_le_dec : RelDecision strings_le :=
  fun x y => decide (strings_Compare x y ≤ 0).
Definition sort_Strings (l : list string) : list string :=
  merge_sort strings_le l.

Module SortedStringArray.

Record t : Type := mk {
  mu_safe : bool;
  array : list string;
  unique : bool;
  comparator : string → string → Z
}.

Definition with_array (a : t) (arr : list string) : t :=
  {| mu_safe := mu_safe a; array := arr;
     unique := unique a; comparator := comparator a |}.

Definition with_unique (a : t) (u : bool) : t :=
  {| mu_safe := mu_safe a; array := array a;
     unique := u; comparator := comparator a |}.

(** [NewSortedStringArraySize(cap, unsafe...)]; the capacity is not
    observable. *)
Definition NewSortedStringArraySize (cap : Z) (unsafe : list bool) : t :=
  {| mu_safe := rwmutex.New unsafe;
     array := [];
     unique := false;
     comparator := fun v1 v2 => strings_Compare v1 v2 |}.

Definition NewSortedStringArray (unsafe : list bool) : t :=
  NewSortedStringArraySize 0 unsafe.

(** [binSearch(value, lock)]: the loop [for min <= max], with the
    running [mid] and [cmp].  Every round shrinks [max - min], so the
    length of the array is fuel enough.  [lock] only says whether the
    read lock is taken. *)
Fixpoint binSearch_loop (fuel : nat) (a : t) (value : string)
    (min max mid cmp : Z) : outcome (Z * Z) :=
  if min <=? max then
    match fuel with
    | O => OutOfFuel
    | S fuel' =>
      let mid := Z.quot (add min max) 2 in
      x ← index (array a) mid;
      let cmp := comparator a value x in
      if cmp <? 0 then binSearch_loop fuel' a value min (sub mid 1) mid cmp
      else if 0 <? cmp then binSearch_loop fuel' a value (add mid 1) max mid cmp
      else Ret (mid, cmp)
    end
  else Ret (mid, cmp).

Definition binSearch (a : t) (value : string) (lock : bool) : outcome (Z * Z) :=
  if len (array a) =? 0 then Ret (-1, -2)
  else binSearch_loop (length (array a)) a value
         0 (sub (len (array a)) 1) 0 (-2).

(** [Add(values...)]: one round of the loop over [values], then the
    loop. *)
Definition Add_value (a : t) (value : string) : outcome t :=
  '(index, cmp) ← binSearch a value false;
  if unique a && (cmp =? 0) then Ret a
  else if index <? 0 then Ret (with_array a (array a ++ [value]))
  else
    let index := if 0 <? cmp then add index 1 else index in
    rear ← slice_from (array a) index;
    front ← slice (array a) 0 index;
    Ret (with_array a ((front ++ [value]) ++ rear)).

Fixpoint Add_loop (values : list string) (a : t) : outcome t :=
  match values with
  | [] => Ret a
  | value :: values' => a' ← Add_value a value; Add_loop values' a'
  end.

Definition Add (a : t) (values : list string) : outcome t :=
  if len values =? 0 then Ret a else Add_loop values a.

(** [Search(value)] *)
Definition Search (a : t) (value : string) : outcome Z :=
  '(i, r) ← binSearch a value true;
  if r =? 0 then Ret i else Ret (-1).

(** [Unique()]: every round either removes an element or advances
    [i], so one more than the length is fuel enough. *)
Fixpoint Unique_loop (fuel : nat) (cmpf : string → string → Z)
    (i : Z) (arr : list string) : outcome (list string) :=
  if i =? sub (len arr) 1 then Ret arr
  else
    match fuel with
    | O => OutOfFuel
    | S fuel' =>
      x ← index arr i;
      y ← index arr (add i 1);
      if cmpf x y =? 0 then
        front ← slice_to arr (add i 1);
        rear ← slice_from arr (add (add i 1) 1);
        Unique_loop fuel' cmpf i (front ++ rear)
      else Unique_loop fuel' cmpf (add i 1) arr
    end.

Definition Unique (a : t) : outcome t :=
  arr ← Unique_loop (S (length (array a))) (comparator a) 0 (array a);
  Ret (with_array a arr).

(** [SetUnique(unique)] *)
Definition SetUnique (a : t) (u : bool) : outcome t :=
  let oldUnique := unique a in
  let a := with_unique a u in
  if u && negb (eqb oldUnique u) then Unique a else Ret a.

Definition Range (a : t) (start : Z) (end_ : list Z) : outcome (list string) :=
  garray.Range (mu_safe a) (array a) start end_.

Definition SubSlice (a : t) (offset : Z) (length : list Z)
  : outcome (list string) :=
  garray.SubSlice (mu_safe a) (array a) offset length.

Definition Rands (a : t) (size : Z) (perm : list Z) : outcome (list string) :=
  garray.Rands (array a) size perm.

(** [NewSortedStringArrayFrom(array, unsafe...)] and
    [NewSortedStringArrayFromCopy(array, unsafe...)] *)
Definition NewSortedStringArrayFrom (arr : list string) (unsafe : list bool)
  : t :=
  with_array (NewSortedStringArraySize 0 unsafe) (sort_Strings arr).

Definition NewSortedStringArrayFromCopy (arr : list string)
    (unsafe : list bool) : t :=
  NewSortedStringArrayFrom
    (copy (replicate (length arr) zero_value) arr) unsafe.

(** [SetArray(array)] and [Sort()] *)
Definition SetArray (a : t) (arr : list string) : t :=
  with_array a (sort_Strings arr).

Definition Sort (a : t) : t := with_array a (sort_Strings (array a)).

(** [Get(index)] *)
Definition Get (a : t) (index : Z) : outcome string :=
  garray.Get (array a) index.

(** [Remove(index)] *)
Definition Remove (a : t) (index : Z) : outcome (string * t) :=
  '(value, rest) ← garray.Remove (array a) index;
  Ret (value, with_array a rest).

(** [PopLeft()], [PopRight()], [PopRands(size)], [PopLefts(size)],
    [PopRights(size)] *)
Definition PopLeft (a : t) : outcome (string * t) :=
  '(value, rest) ← garray.PopLeft (array a);
  Ret (value, with_array a rest).

Definition PopRight (a : t) : outcome (string * t) :=
  '(value, rest) ← garray.PopRight (array a);
  Ret (value, with_array a rest).

Definition PopRands (intn : nat → Z → Z) (a : t) (size : Z)
  : outcome (list string * t) :=
  '(value, rest) ← garray.PopRands intn (array a) size;
  Ret (value, with_array a rest).

Definition PopLefts (a : t) (size : Z) : outcome (list string * t) :=
  '(value, rest) ← garray.PopLefts (array a) size;
  Ret (value, with_array a rest).

Definition PopRights (a : t) (size : Z) : outcome (list string * t) :=
  '(value, rest) ← garray.PopRights (array a) size;
  Ret (value, with_array a rest).

(** [Len()] *)
Definition Len (a : t) : Z := len (array a).

(** [Contains(value)] *)
Definition Contains (a : t) (value : string) : outcome bool :=
  i ← Search a value;
  Ret (negb (i =? -1)).

(** [Clone()] *)
Definition Clone (a : t) : t :=
  NewSortedStringArrayFrom
    (copy (replicate (length (array a)) zero_value) (array a))
    [negb (mu_safe a)].

(** [Clear()] *)
Definition Clear (a : t) : t :=
  if 0 <? len (array a) then with_array a [] else a.

End SortedStringArray.


(** ** Order and sortedness *)

(** What the containers ask of a comparator: a three-way total order
    whose zero is equality. *)
Class TotalComparator (cmp : string → string → Z) : Prop := {
  cmp_eq x y : cmp x y = 0 ↔ x = y;
  cmp_antisym x y : cmp x y < 0 ↔ 0 < cmp y x;
  cmp_trans x y z : cmp x y ≤ 0 → cmp y z ≤ 0 → cmp x z ≤ 0
}.

Definition le_by (cmp : string → string → Z) : relation string :=
  fun x y => cmp x y ≤ 0.
Definition lt_by (cmp : string → string → Z) : relation string :=
  fun x y => cmp x y < 0.

(** The invariant of a sorted container: neighbours are in order. *)
Definition sorted (a : SortedStringArray.t) : Prop :=
  Sorted (le_by (SortedStringArray.comparator a)) (SortedStringArray.array a).

(** No two neighbours are equal. *)
Definition no_adjacent_equal (l : list string) : Prop :=
  ∀ (i : nat) x y, l !! i = Some x → l !! S i = Some y → x ≠ y.

(** What [binSearch] establishes about the pair [(mid, c)] it returns on
    a non-empty sorted array: [c] is the comparison of the value with the
    element at [mid]; below [mid] everything is smaller than the value
    when [c < 0], above [mid] everything is greater when [0 < c]. *)
Definition binSearch_post (cmp : string → string → Z) (arr : list string)
    (value : string) (mid c : Z) : Prop :=
  0 ≤ mid < len arr ∧
  (∃ x, arr !! Z.to_nat mid = Some x ∧ c = cmp value x) ∧
  (c < 0 → ∀ (k : nat) x, Z.of_nat k < mid → arr !! k = Some x → 0 < cmp value x) ∧
  (0 < c → ∀ (k : nat) x, mid < Z.of_nat k → arr !! k = Some x → cmp value x < 0).

(** A sequence of [Add] calls on one container; [calls] lists the
    arguments of each call. *)
Fixpoint Add_calls (a : SortedStringArray.t) (calls : list (list string))
  : outcome SortedStringArray.t :=
  match calls with
  | [] => Ret a
  | values :: calls' => a' ← SortedStringArray.Add a values; Add_calls a' calls'
  end.

(** ** Reference results: windows, paddings, fills *)

(** The interval of [Range]: from [max(start, 0)] up to the smaller of
    [end] (the length when omitted) and the length; empty when [start]
    lies beyond that end. *)
Definition Range_interval {A} (arr : list A) (start : Z) (end_ : list Z) : list A :=
  let stop := match end_ with e0 :: _ => Z.min e0 (len arr) | [] => len arr end in
  if stop <? start then []
  else take (Z.to_nat (stop - Z.max start 0)) (drop (Z.to_nat (Z.max start 0)) arr).

(** The window of [SubSlice]: a negative offset counts from the end; no
    length means up to the end; a length [l >= 0] means at most [l]
    elements from the offset on; a length [l < 0] means the [-l] elements
    that end just before the offset.  A window that would begin before
    index 0, or an offset beyond the end, gives the empty window. *)
Definition SubSlice_window {A} (arr : list A) (offset : Z) (length : list Z) : list A :=
  let start := if offset <? 0 then len arr + offset else offset in
  if (len arr <? offset) || (start <? 0) then []
  else
    match length with
    | [] => drop (Z.to_nat start) arr
    | l0 :: _ =>
      if l0 <? 0 then
        if start + l0 <? 0 then []
        else take (Z.to_nat (- l0)) (drop (Z.to_nat (start + l0)) arr)
      else take (Z.to_nat l0) (drop (Z.to_nat start) arr)
    end.

(** The array after [Pad(size, value)]: unchanged when [|size|] is at
    most the length, else grown to length [|size|] with copies of
    [value], on the right for a positive [size], on the left for a
    negative one. *)
Definition Pad_result (arr : list Z) (size value : Z) : list Z :=
  if Z.abs size <=? len arr then arr
  else if 0 <? size then arr ++ replicate (Z.to_nat (Z.abs size - len arr)) value
  else replicate (Z.to_nat (Z.abs size - len arr)) value ++ arr.

(** The array after [Fill(startIndex, num, value)] when the start is at
    most the length: [num] slots from [max(startIndex, 0)] on hold
    [value], the array growing as needed. *)
Definition Fill_result (arr : list Z) (startIndex num value : Z) : list Z :=
  let start := Z.max startIndex 0 in
  take (Z.to_nat start) arr ++ replicate (Z.to_nat num) value
    ++ drop (Z.to_nat (start + num)) arr.

(** Modelled from the spec: [grand.Perm(n)] of package [util/grand],
    whose source is not among the files embedded here.  [Rands] samples
    without replacement by reading the array at the first [size] entries
    of the draw, which is a permutation of [0, n). *)
Definition is_Perm (perm : list Z) (n : Z) : Prop := perm ≡ₚ seqZ 0 n.

(** ** Sample containers *)

Definition sample_sorted : SortedStringArray.t :=
  SortedStringArray.mk true ["b"; "d"]%string false strings_Compare.

Definition sample_unique : SortedStringArray.t :=
  SortedStringArray.mk true ["a"; "b"]%string true strings_Compare.

Definition sample_ints : IntArray.t := IntArray.mk true [1; 2; 3].

Definition sample_dups : SortedStringArray.t :=
  SortedStringArray.mk true ["a"; "a"; "b"]%string false strings_Compare.

(** A draw of [grand.Intn] that always gives the first position. *)
Definition sample_intn : nat → Z → Z := λ _ _, 0.

(** ** Reference notions for the further operations *)

(** The sum of a list of integers, in [Z]. *)
Definition Zsum (l : list Z) : Z := foldr Z.add 0 l.

(** How often [v] occurs in [l]. *)
Definition occurrences (v : Z) (l : list Z) : Z :=
  Z.of_nat (length (filter (λ x, x = v) l)).

(** What is left of a run of elements that starts with [x] and goes on
    with [l] when every element that compares equal to the one kept
    before it is dropped. *)
Fixpoint collapse_from (cmp : string → string → Z) (x : string)
    (l : list string) : list string :=
  match l with
  | [] => [x]
  | y :: l' =>
    if cmp x y =? 0 then collapse_from cmp x l'
    else x :: collapse_from cmp y l'
  end.

(** What [Rands(size)] gives from the draw [perm]: the elements at the
    first [min size (len arr)] indices of the draw, in that order. *)
Definition Rands_result {A} (arr : list A) (size : Z) (perm : list Z)
    (picks : list A) : Prop :=
  Forall2 (λ p v, index arr v = Ret p) picks
          (take (Z.to_nat (size `min` len arr)) perm).

(** Modelled from the spec: [grand.Intn(n)] of package [util/grand],
    whose source is not among the files embedded here.  [PopRands] pops
    at a random position of what is left of the array: the call gives a
    number of [[0, n)] for a positive [n]. *)
Definition is_Intn (intn : nat → Z → Z) : Prop :=
  ∀ (call : nat) (n : Z), 0 < n → 0 ≤ intn call n < n.

(** * Properties *)

(** ** Integers and slices *)

Section go_facts.
Context {A : Type}.
Implicit Types (s : list A) (i lo hi : Z).

Lemma wrap_id z : min_int ≤ z ≤ max_int → wrap z = z.
Proof.
  unfold wrap, min_int, max_int. intros Hz.
  rewrite Z.mod_small; lia.
Qed.

Lemma len_nonneg s : 0 ≤ len s.
Proof. unfold len. lia. Qed.

Lemma len_app s1 s2 : len (s1 ++ s2) = len s1 + len s2.
Proof. unfold len. rewrite length_app. lia. Qed.

Lemma index_Ret s i x :
  0 ≤ i → s !! Z.to_nat i = Some x → index s i = Ret x.
Proof.
  intros Hi Hx. unfold index.
  destruct (Z.ltb_spec i 0); [lia|]. by rewrite Hx.
Qed.

Lemma index_in_range s i :
  0 ≤ i < len s → ∃ x, s !! Z.to_nat i = Some x ∧ index s i = Ret x.
Proof.
  intros Hi. destruct (lookup_lt_is_Some_2 s (Z.to_nat i)) as [x Hx].
  { unfold len in Hi. lia. }
  exists x. split; [done|]. apply index_Ret; [lia|done].
Qed.

Lemma store_in_range s i v :
  0 ≤ i < len s → store s i v = Ret (<[Z.to_nat i := v]> s).
Proof.
  intros Hi. unfold store.
  destruct (Z.ltb_spec i 0), (Z.leb_spec (len s) i); simpl; try done; lia.
Qed.

Lemma slice_in_range s lo hi :
  0 ≤ lo ≤ hi → hi ≤ len s →
  slice s lo hi = Ret (take (Z.to_nat (hi - lo)) (drop (Z.to_nat lo) s)).
Proof.
  intros Hlo Hhi. unfold slice.
  destruct (Z.ltb_spec lo 0), (Z.ltb_spec hi lo), (Z.ltb_spec (len s) hi);
    simpl; try done; lia.
Qed.

Lemma slice_from_in_range s lo :
  0 ≤ lo ≤ len s → slice_from s lo = Ret (drop (Z.to_nat lo) s).
Proof.
  intros Hlo. unfold slice_from. rewrite slice_in_range by lia.
  f_equal. apply take_ge. rewrite length_drop. unfold len. lia.
Qed.

Lemma slice_to_take s hi :
  0 ≤ hi ≤ len s → slice_to s hi = Ret (take (Z.to_nat hi) s).
Proof.
  intros Hhi. unfold slice_to. rewrite slice_in_range by lia.
  by rewrite Z.sub_0_r.
Qed.

Lemma slice_out_of_range s lo hi :
  lo < 0 ∨ hi < lo ∨ len s < hi → slice s lo hi = Panic SliceBoundsOutOfRange.
Proof.
  intros H. unfold slice.
  destruct (Z.ltb_spec lo 0), (Z.ltb_spec hi lo), (Z.ltb_spec (len s) hi);
    simpl; try done; lia.
Qed.

End go_facts.

(** ** [strings.Compare] is a total comparator *)

Section string_order.

Lemma ascii_compare_refl c : Ascii.compare c c = Eq.
Proof. unfold Ascii.compare. apply N.compare_refl. Qed.

Lemma ascii_compare_lt_trans c1 c2 c3 :
  Ascii.compare c1 c2 = Lt → Ascii.compare c2 c3 = Lt →
  Ascii.compare c1 c3 = Lt.
Proof.
  unfold Ascii.compare. rewrite !N.compare_lt_iff. lia.
Qed.

Lemma string_compare_refl s : String.compare s s = Eq.
Proof. induction s as [|c s IH]; simpl; [done|]. by rewrite ascii_compare_refl. Qed.

Lemma string_compare_lt_trans s1 : ∀ s2 s3,
  String.compare s1 s2 = Lt → String.compare s2 s3 = Lt →
  String.compare s1 s3 = Lt.
Proof.
  induction s1 as [|c1 s1 IH]; intros [|c2 s2] [|c3 s3]; simpl; try done.
  destruct (Ascii.compare c1 c2) eqn:H12; try done;
    destruct (Ascii.compare c2 c3) eqn:H23; try done; intros E1 E2.
  - apply Ascii.compare_eq_iff in H12, H23. subst.
    rewrite ascii_compare_refl. eauto.
  - apply Ascii.compare_eq_iff in H12. subst. by rewrite H23.
  - apply Ascii.compare_eq_iff in H23. subst. by rewrite H12.
  - by rewrite (ascii_compare_lt_trans _ _ _ H12 H23).
Qed.

Lemma strings_Compare_zero x y : strings_Compare x y = 0 ↔ x = y.
Proof.
  unfold strings_Compare. split.
  - destruct (String.compare x y) eqn:E; try done.
    intros _. by apply String.compare_eq_iff.
  - intros ->. by rewrite string_compare_refl.
Qed.

Lemma strings_Compare_neg x y :
  strings_Compare x y < 0 ↔ String.compare x y = Lt.
Proof. unfold strings_Compare. destruct (String.compare x y); split; (done || lia). Qed.

Lemma strings_Compare_pos x y :
  0 < strings_Compare x y ↔ String.compare y x = Lt.
Proof.
  unfold strings_Compare. rewrite (String.compare_antisym y x).
  destruct (String.compare x y); simpl; split; (done || lia).
Qed.

#[global] Instance strings_Compare_total : TotalComparator strings_Compare.
Proof.
  split.
  - apply strings_Compare_zero.
  - intros x y. by rewrite strings_Compare_neg, strings_Compare_pos.
  - intros x y z Hxy Hyz.
    destruct (decide (x = y)) as [->|Nxy]; [done|].
    destruct (decide (y = z)) as [->|Nyz]; [done|].
    assert (strings_Compare x y < 0) as Lxy.
    { destruct (decide (strings_Compare x y = 0)) as [E|E]; [|lia].
      by apply strings_Compare_zero in E. }
    assert (strings_Compare y z < 0) as Lyz.
    { destruct (decide (strings_Compare y z = 0)) as [E|E]; [|lia].
      by apply strings_Compare_zero in E. }
    apply strings_Compare_neg in Lxy, Lyz.
    pose proof (string_compare_lt_trans _ _ _ Lxy Lyz) as Lxz.
    apply strings_Compare_neg in Lxz. lia.
Qed.
End string_order.

(** ** Comparators and sorted lists *)

Section comparator_facts.
Context (cmp : string → string → Z) `{!TotalComparator cmp}.

Lemma cmp_refl x : cmp x x = 0.
Proof. by apply cmp_eq. Qed.

Lemma cmp_pos_neg x y : 0 < cmp x y ↔ cmp y x < 0.
Proof. by rewrite cmp_antisym. Qed.

Lemma cmp_lt_le_trans x y z : cmp x y < 0 → cmp y z ≤ 0 → cmp x z < 0.
Proof.
  intros Hxy Hyz.
  assert (cmp x z ≤ 0) as Hxz by (apply (cmp_trans x y z); lia).
  destruct (decide (cmp x z = 0)) as [E|E]; [|lia].
  apply cmp_eq in E. subst z. apply cmp_antisym in Hxy. lia.
Qed.

Lemma cmp_le_lt_trans x y z : cmp x y ≤ 0 → cmp y z < 0 → cmp x z < 0.
Proof.
  intros Hxy Hyz.
  assert (cmp x z ≤ 0) as Hxz by (apply (cmp_trans x y z); lia).
  destruct (decide (cmp x z = 0)) as [E|E]; [|lia].
  apply cmp_eq in E. subst z. apply cmp_antisym in Hyz. lia.
Qed.

#[global] Instance le_by_transitive : Transitive (le_by cmp).
Proof. intros x y z. apply cmp_trans. Qed.

#[global] Instance lt_by_transitive : Transitive (lt_by cmp).
Proof.
  intros x y z Hxy Hyz. unfold lt_by in *.
  apply (cmp_lt_le_trans x y z); lia.
Qed.
End comparator_facts.

Section sorted_lists.
Context {A : Type} (R : relation A).

Lemma StronglySorted_lookup l : ∀ (i j : nat) x y,
  StronglySorted R l → (i < j)%nat →
  l !! i = Some x → l !! j = Some y → R x y.
Proof.
  induction l as [|z l IH]; intros i j x y Hs Hij Hi Hj; [done|].
  apply StronglySorted_cons in Hs as [Hall Hs].
  destruct j as [|j]; [lia|]. simpl in Hj.
  destruct i as [|i]; simpl in Hi.
  - simplify_eq. rewrite Forall_lookup in Hall. eauto.
  - eapply (IH i j); eauto. lia.
Qed.
End sorted_lists.

(** ** [binSearch] *)

Section binSearch_facts.
Import SortedStringArray.
Context (a : t) `{!TotalComparator (comparator a)}.
Hypothesis arr_sorted : StronglySorted (le_by (comparator a)) (array a).
Hypothesis arr_small : 2 * len (array a) ≤ max_int.

Lemma midpoint_bounds (lo hi : Z) :
  0 ≤ lo ≤ hi → hi < len (array a) →
  let mid := Z.quot (add lo hi) 2 in lo ≤ mid ≤ hi.
Proof using arr_small.
  intros Hlo Hhi. simpl. unfold add.
  rewrite wrap_id by (unfold min_int, max_int in *; lia).
  rewrite Z.quot_div_nonneg by lia.
  split.
  - apply Z.div_le_lower_bound; lia.
  - apply Z.div_le_upper_bound; lia.
Qed.

Lemma binSearch_loop_ok value : ∀ (fuel : nat) (lo hi mid c : Z),
  0 ≤ lo → hi < len (array a) → lo ≤ hi + 1 →
  hi - lo + 1 ≤ Z.of_nat fuel →
  (∀ (k : nat) x, Z.of_nat k < lo → array a !! k = Some x →
                  0 < comparator a value x) →
  (∀ (k : nat) x, hi < Z.of_nat k → array a !! k = Some x →
                  comparator a value x < 0) →
  (hi < lo → binSearch_post (comparator a) (array a) value mid c) →
  ∃ mid' c',
    binSearch_loop fuel a value lo hi mid c = Ret (mid', c') ∧
    binSearch_post (comparator a) (array a) value mid' c'.
Proof using arr_sorted arr_small TotalComparator0.
  induction fuel as [|fuel IH]; intros lo hi mid c Hlo Hhi Hlh Hfuel Hbelow Habove Hexit;
    simpl; destruct (Z.leb_spec lo hi) as [Hle|Hgt]; eauto; [lia|].
  pose proof (midpoint_bounds lo hi ltac:(lia) Hhi) as Hmid. simpl in Hmid.
  set (m := Z.quot (add lo hi) 2) in *.
  destruct (index_in_range (array a) m ltac:(lia)) as (x & Hx & ->). simpl.
  assert (min_int ≤ m - 1 ∧ m + 1 ≤ max_int) as Hm1.
  { unfold min_int, max_int in *. lia. }
  destruct (Z.ltb_spec (comparator a value x) 0) as [Hneg|Hnneg].
  - (* the value sorts before [array[m]]: continue on the left *)
    unfold sub. rewrite wrap_id by (unfold min_int, max_int in *; lia).
    apply IH; try lia; [done| |].
    + intros k y Hk Hy.
      destruct (decide (Z.of_nat k = m)) as [Hkm|Hkm].
      * subst m. rewrite <- Hkm, Nat2Z.id in Hx. by simplify_eq.
      * apply (cmp_lt_le_trans _ value x y); [done|].
        eapply (StronglySorted_lookup (le_by (comparator a)) (array a) (Z.to_nat m) k); eauto. lia.
    + intros Hend. split; [lia|]. split; [eauto|]. split; [|intros ?; lia].
      intros _ k y Hk Hy. apply (Hbelow k y); [lia|done].
  - destruct (Z.ltb_spec 0 (comparator a value x)) as [Hpos|Hzero].
    + (* the value sorts after [array[m]]: continue on the right *)
      unfold add at 1. rewrite wrap_id by (unfold min_int, max_int in *; lia).
      apply IH; try lia; [|done|].
      * intros k y Hk Hy.
        destruct (decide (Z.of_nat k = m)) as [Hkm|Hkm].
        -- subst m. rewrite <- Hkm, Nat2Z.id in Hx. by simplify_eq.
        -- apply cmp_pos_neg; [done|].
           apply (cmp_le_lt_trans _ y x value); [|by apply cmp_pos_neg].
           eapply (StronglySorted_lookup (le_by (comparator a)) (array a) k (Z.to_nat m)); eauto. lia.
      * intros Hend. split; [lia|]. split; [eauto|]. split; [intros ?; lia|].
        intros _ k y Hk Hy. apply (Habove k y); [lia|done].
    + (* exact match *)
      exists m, (comparator a value x). split; [done|].
      split; [lia|]. split; [eauto|]. split; intros ?; lia.
Qed.

Lemma binSearch_empty value lock :
  array a = [] → binSearch a value lock = Ret (-1, -2).
Proof. intros E. unfold binSearch. by rewrite E. Qed.

Lemma binSearch_ok value lock :
  array a ≠ [] →
  ∃ mid c, binSearch a value lock = Ret (mid, c) ∧
           binSearch_post (comparator a) (array a) value mid c.
Proof using arr_sorted arr_small TotalComparator0.
  intros Hne. unfold binSearch.
  assert (0 < len (array a)) as Hlen.
  { unfold len. destruct (array a); [done|]. simpl. lia. }
  destruct (Z.eqb_spec (len (array a)) 0) as [|_]; [lia|].
  unfold sub. rewrite wrap_id by (unfold min_int, max_int in *; lia).
  apply binSearch_loop_ok; try lia.
  - unfold len. lia.
  - intros k x Hk Hx. apply lookup_lt_Some in Hx. unfold len in Hk. lia.
Qed.

(** A value the search does not hit exactly is not in the array; a hit
    is at the returned index. *)
Lemma binSearch_post_miss value mid c :
  binSearch_post (comparator a) (array a) value mid c →
  c ≠ 0 → value ∉ array a.
Proof using arr_sorted TotalComparator0.
  intros (Hmid & (x & Hx & Hc) & Hlt & Hgt) Hne Hin.
  apply list_elem_of_lookup in Hin as [k Hk].
  assert (∀ k' y, array a !! k' = Some y → comparator a value y ≠ 0 → y ≠ value) as Hdiff.
  { intros k' y _ Hy ->. by rewrite cmp_refl in Hy. }
  destruct (Z_lt_le_dec c 0) as [Hneg|Hnn].
  - destruct (Z_lt_le_dec (Z.of_nat k) mid) as [Hkm|Hkm].
    + specialize (Hlt Hneg k value Hkm Hk). rewrite cmp_refl in Hlt; [lia|done].
    + assert (comparator a value value < 0); [|rewrite cmp_refl in *; [lia|done]].
      destruct (decide (Z.of_nat k = mid)) as [E|E].
      * subst mid. rewrite Nat2Z.id in Hx. simplify_eq. lia.
      * apply (cmp_lt_le_trans _ value x value); [lia|].
        eapply (StronglySorted_lookup (le_by (comparator a)) (array a) (Z.to_nat mid) k); eauto. lia.
  - assert (0 < c) as Hpos by lia.
    destruct (Z_lt_le_dec mid (Z.of_nat k)) as [Hkm|Hkm].
    + specialize (Hgt Hpos k value Hkm Hk). rewrite cmp_refl in Hgt; [lia|done].
    + assert (comparator a value value < 0); [|rewrite cmp_refl in *; [lia|done]].
      destruct (decide (Z.of_nat k = mid)) as [E|E].
      * subst mid. rewrite Nat2Z.id in Hx. simplify_eq. rewrite cmp_refl in Hpos; [lia|done].
      * apply (cmp_le_lt_trans _ value x value).
        -- eapply (StronglySorted_lookup (le_by (comparator a)) (array a) k (Z.to_nat mid)); eauto. lia.
        -- apply cmp_pos_neg; [done|lia].
Qed.

Lemma binSearch_post_hit value mid c :
  binSearch_post (comparator a) (array a) value mid c →
  c = 0 → array a !! Z.to_nat mid = Some value.
Proof using TotalComparator0.
  intros (Hmid & (x & Hx & Hc) & _) ->.
  symmetry in Hc. apply cmp_eq in Hc. by subst.
Qed.
End binSearch_facts.

(** ** [Add] *)

Section insertion.
Context {A : Type} (R : relation A).

(** Splicing [v] in at position [i] of a sorted list keeps it sorted
    when [v] is in order with both sides. *)
Lemma StronglySorted_splice (l : list A) (i : nat) (v : A) :
  StronglySorted R l →
  (∀ k x, (k < i)%nat → l !! k = Some x → R x v) →
  (∀ k y, (i ≤ k)%nat → l !! k = Some y → R v y) →
  StronglySorted R (take i l ++ v :: drop i l).
Proof.
  intros Hs Hleft Hright.
  rewrite <- (take_drop i l) in Hs.
  apply StronglySorted_app in Hs as (Hcross & Htake & Hdrop).
  apply StronglySorted_app_2; [|done|].
  - intros x1 x2 Hx1 Hx2. apply elem_of_cons in Hx2 as [->|Hx2]; [|eauto].
    apply elem_of_take in Hx1 as (k & Hk & Hlt). eauto.
  - apply StronglySorted_cons. split; [|done].
    apply Forall_forall. intros y Hy.
    apply list_elem_of_lookup in Hy as [k Hk].
    rewrite lookup_drop in Hk. apply (Hright (i + k)%nat); [lia|done].
Qed.
End insertion.

Section strictness.
Context (cmp : string → string → Z) `{!TotalComparator cmp}.

Lemma StronglySorted_lt_no_adjacent_equal l :
  StronglySorted (lt_by cmp) l → no_adjacent_equal l.
Proof.
  intros Hs i x y Hx Hy ->.
  pose proof (StronglySorted_lookup (lt_by cmp) l i (S i) y y Hs ltac:(lia) Hx Hy) as Hlt.
  unfold lt_by in Hlt. rewrite cmp_refl in Hlt; [lia|done].
Qed.

Lemma Sorted_le_no_adjacent_equal_lt l :
  Sorted (le_by cmp) l → no_adjacent_equal l → StronglySorted (lt_by cmp) l.
Proof.
  intros Hs Hne. apply Sorted_StronglySorted; [apply _|].
  induction Hs as [|x l Hs IH Hhd]; constructor.
  - apply IH. intros i y z Hy Hz. apply (Hne (S i)); done.
  - destruct Hhd as [|y l Hxy]; constructor.
    unfold lt_by, le_by in *.
    destruct (decide (cmp x y = 0)) as [E|E]; [|lia].
    apply cmp_eq in E. by destruct (Hne 0%nat x y).
Qed.
End strictness.

Section Add_facts.
Import SortedStringArray.

Lemma Add_is_loop a values : Add a values = Add_loop values a.
Proof. unfold Add. by destruct values. Qed.

Lemma Add_loop_app values1 values2 a :
  Add_loop (values1 ++ values2) a = a' ← Add_loop values1 a; Add_loop values2 a'.
Proof.
  revert a. induction values1 as [|v values1 IH]; intros a; simpl; [done|].
  destruct (Add_value a v) as [a'| |]; simpl; [apply IH|done..].
Qed.

(** The two outcomes of one round of [Add]: the value is skipped
    (uniqueness on, value present), or spliced in at a position where
    it is in order with both sides. *)
Lemma Add_value_cases a value `{!TotalComparator (comparator a)} :
  sorted a → 2 * len (array a) ≤ max_int →
  ∃ a', Add_value a value = Ret a' ∧
    ((unique a = true ∧ value ∈ array a ∧ a' = a) ∨
     (∃ i : nat,
        a' = with_array a (take i (array a) ++ value :: drop i (array a)) ∧
        (i ≤ length (array a))%nat ∧
        (unique a = true → value ∉ array a) ∧
        (∀ k x, (k < i)%nat → array a !! k = Some x → comparator a x value ≤ 0) ∧
        (∀ k y, (i ≤ k)%nat → array a !! k = Some y → comparator a value y ≤ 0))).
Proof.
  intros Hsorted Hsmall. unfold Add_value.
  apply Sorted_StronglySorted in Hsorted; [|apply _].
  destruct (decide (array a = [])) as [Hnil|Hne].
  { rewrite binSearch_empty by done. simpl.
    rewrite andb_false_r. simpl. eexists. split; [done|]. right.
    exists 0%nat. rewrite Hnil. simpl. repeat split; try done.
    - intros _. apply not_elem_of_nil. }
  destruct (binSearch_ok a Hsorted Hsmall value false Hne) as (mid & c & -> & Hpost).
  simpl.
  pose proof Hpost as (Hmid & (x & Hx & Hc) & Hbelow & Habove).
  destruct (unique a && (c =? 0)) eqn:Hskip.
  { apply andb_true_iff in Hskip as [Hu Hc0]. apply Z.eqb_eq in Hc0.
    eexists. split; [done|]. left. repeat split; try done.
    eapply list_elem_of_lookup_2, binSearch_post_hit; eauto. }
  destruct (Z.ltb_spec mid 0) as [|_]; [lia|].
  assert (unique a = true → value ∉ array a) as Hfresh.
  { intros Hu. rewrite Hu in Hskip. simpl in Hskip. apply Z.eqb_neq in Hskip.
    eapply binSearch_post_miss; eauto. }
  assert (∀ k y, array a !! k = Some y → (Z.to_nat mid ≤ k)%nat →
                 comparator a x y ≤ 0) as Hup.
  { intros k y Hy Hk. destruct (decide (k = Z.to_nat mid)) as [->|Hkm].
    - simplify_eq. rewrite cmp_refl; [lia|done].
    - eapply (StronglySorted_lookup (le_by (comparator a)) (array a) (Z.to_nat mid) k);
        eauto; lia. }
  assert (∀ k y, array a !! k = Some y → (k ≤ Z.to_nat mid)%nat →
                 comparator a y x ≤ 0) as Hdown.
  { intros k y Hy Hk. destruct (decide (k = Z.to_nat mid)) as [->|Hkm].
    - simplify_eq. rewrite cmp_refl; [lia|done].
    - eapply (StronglySorted_lookup (le_by (comparator a)) (array a) k (Z.to_nat mid));
        eauto; lia. }
  destruct (Z.ltb_spec 0 c) as [Hpos|Hnpos].
  - (* after the located element *)
    unfold add. rewrite wrap_id by (unfold min_int, max_int in *; lia).
    rewrite slice_from_in_range by lia. simpl.
    rewrite slice_in_range by lia. simpl.
    rewrite Z.sub_0_r, drop_0, <- app_assoc. simpl.
    eexists. split; [done|]. right. exists (Z.to_nat (mid + 1)).
    split; [done|]. split; [unfold len in *; lia|]. split; [done|]. split.
    + intros k y Hk Hy.
      apply (cmp_trans y x value); [apply (Hdown k); [done|lia]|].
      assert (comparator a x value < 0); [|lia].
      apply cmp_pos_neg; [done|]. by rewrite <- Hc.
    + intros k y Hk Hy.
      assert (comparator a value y < 0); [|lia].
      apply (Habove Hpos k y); [lia|done].
  - (* before the located element *)
    rewrite slice_from_in_range by lia. simpl.
    rewrite slice_in_range by lia. simpl.
    rewrite Z.sub_0_r, drop_0, <- app_assoc. simpl.
    eexists. split; [done|]. right. exists (Z.to_nat mid).
    split; [done|]. split; [unfold len in *; lia|]. split; [done|]. split.
    + intros k y Hk Hy.
      destruct (decide (c = 0)) as [Hc0|Hc0].
      * rewrite Hc0 in Hc. symmetry in Hc. apply cmp_eq in Hc. subst x.
        apply (Hdown k); [done|lia].
      * assert (0 < comparator a value y); [|apply cmp_pos_neg in H; [lia|done]].
        apply (Hbelow ltac:(lia) k y); [lia|done].
    + intros k y Hk Hy.
      apply (cmp_trans value x y); [lia|]. by apply (Hup k).
Qed.

(** One round of [Add] keeps the array sorted, and strictly sorted when
    uniqueness is on. *)
Lemma Add_value_sorted a value `{!TotalComparator (comparator a)} :
  sorted a → 2 * len (array a) ≤ max_int →
  ∃ a', Add_value a value = Ret a' ∧
    sorted a' ∧
    comparator a' = comparator a ∧ unique a' = unique a ∧
    mu_safe a' = mu_safe a ∧
    len (array a') ≤ len (array a) + 1 ∧
    (unique a = true → value ∈ array a → a' = a) ∧
    (unique a = true → no_adjacent_equal (array a) →
     no_adjacent_equal (array a')).
Proof.
  intros Hsorted Hsmall.
  destruct (Add_value_cases a value Hsorted Hsmall) as (a' & Hrun & Hcases).
  exists a'. split; [done|].
  destruct Hcases as [(Hu & Hin & ->)|(i & -> & Hi & Hfresh & Hleft & Hright)].
  { repeat split; try done. lia. }
  assert (StronglySorted (le_by (comparator a)) (array a)) as Hss.
  { apply Sorted_StronglySorted; [apply _|done]. }
  split; [|repeat split].
  - unfold sorted. simpl. apply StronglySorted_Sorted.
    by apply StronglySorted_splice.
  - simpl. rewrite len_app. unfold len. simpl.
    rewrite length_take, length_drop. lia.
  - intros Hu Hin. by destruct (Hfresh Hu).
  - intros Hu Hnae. simpl.
    apply (StronglySorted_lt_no_adjacent_equal (comparator a)).
    pose proof (Sorted_le_no_adjacent_equal_lt _ _ Hsorted Hnae) as Hlt.
    specialize (Hfresh Hu).
    apply StronglySorted_splice; [done| |].
    + intros k x Hk Hx. unfold lt_by.
      destruct (decide (comparator a x value = 0)) as [E|E].
      * apply cmp_eq in E. subst x. destruct Hfresh.
        by eapply list_elem_of_lookup_2.
      * specialize (Hleft k x Hk Hx). lia.
    + intros k y Hk Hy. unfold lt_by.
      destruct (decide (comparator a value y = 0)) as [E|E].
      * apply cmp_eq in E. subst y. destruct Hfresh.
        by eapply list_elem_of_lookup_2.
      * specialize (Hright k y Hk Hy). lia.
Qed.

Lemma Add_loop_sorted values : ∀ a `{!TotalComparator (comparator a)},
  sorted a → 2 * (len (array a) + len values) ≤ max_int →
  ∃ a', Add_loop values a = Ret a' ∧
    sorted a' ∧
    comparator a' = comparator a ∧ unique a' = unique a ∧
    mu_safe a' = mu_safe a ∧
    len (array a') ≤ len (array a) + len values ∧
    (unique a = true → no_adjacent_equal (array a) →
     no_adjacent_equal (array a')).
Proof.
  induction values as [|v values IH]; intros a Hcmp Hsorted Hsmall; simpl.
  { exists a. repeat split; try done. unfold len; simpl; lia. }
  assert (len (v :: values) = 1 + len values) as Hlen.
  { unfold len. simpl. lia. }
  rewrite Hlen in *. pose proof (len_nonneg values).
  destruct (Add_value_sorted a v Hsorted ltac:(lia))
    as (a1 & -> & Hs1 & Hc1 & Hu1 & Hm1 & Hl1 & _ & Hn1).
  simpl.
  destruct (IH a1) as (a' & -> & Hs' & Hc' & Hu' & Hm' & Hl' & Hn').
  { by rewrite Hc1. }
  { done. }
  { lia. }
  exists a'. repeat split; try congruence; try lia.
  intros Hu Hnae. apply Hn'; [congruence|]. by apply Hn1.
Qed.

(** With uniqueness on, one round of [Add] either finds the value and
    changes nothing, or adds exactly one copy of it. *)
Lemma Add_value_unique a value `{!TotalComparator (comparator a)} :
  sorted a → 2 * len (array a) ≤ max_int → unique a = true →
  ∃ a', Add_value a value = Ret a' ∧
    sorted a' ∧ comparator a' = comparator a ∧ unique a' = true ∧
    len (array a') ≤ len (array a) + 1 ∧
    ((value ∈ array a ∧ a' = a) ∨
     ((value ∉ array a) ∧ array a' ≡ₚ value :: array a)).
Proof.
  intros Hsorted Hsmall Hu.
  destruct (Add_value_sorted a value Hsorted Hsmall)
    as (a' & Hrun & Hs' & Hc' & Hu' & _ & Hl' & _).
  exists a'. split; [done|]. split; [done|]. split; [done|].
  split; [congruence|]. split; [done|].
  destruct (Add_value_cases a value Hsorted Hsmall) as (a'' & Hrun' & Hcases).
  rewrite Hrun in Hrun'. injection Hrun' as <-.
  destruct Hcases as [(_ & Hin & ->)|(i & -> & _ & Hfresh & _)]; [by left|].
  right. split; [by apply Hfresh|]. simpl.
  rewrite <- Permutation_middle. by rewrite take_drop.
Qed.

(** With uniqueness on, [Add] adds one copy of each value that was
    absent and nothing else. *)
Lemma Add_loop_unique values : ∀ a `{!TotalComparator (comparator a)},
  sorted a → 2 * (len (array a) + len values) ≤ max_int → unique a = true →
  ∃ a' fresh, Add_loop values a = Ret a' ∧
    NoDup fresh ∧
    (∀ x, x ∈ fresh ↔ x ∈ values ∧ x ∉ array a) ∧
    array a' ≡ₚ fresh ++ array a.
Proof.
  induction values as [|v values IH]; intros a Hcmp Hsorted Hsmall Hu; simpl.
  { exists a, []. split; [done|]. split; [constructor|]. split; [|done].
    intros x. split; [by intros ?%elem_of_nil|by intros [?%elem_of_nil _]]. }
  assert (len (v :: values) = 1 + len values) as Hlen.
  { unfold len. simpl. lia. }
  rewrite Hlen in *. pose proof (len_nonneg values).
  destruct (Add_value_unique a v Hsorted ltac:(lia) Hu)
    as (a1 & -> & Hs1 & Hc1 & Hu1 & Hl1 & Hcase).
  simpl.
  destruct (IH a1) as (a' & fresh & -> & Hnd & Hfresh & Hperm);
    [by rewrite Hc1|done|lia|done|].
  destruct Hcase as [[Hin ->]|[Hnotin Hperm1]].
  - exists a', fresh. split; [done|]. split; [done|]. split; [|done].
    intros x. rewrite Hfresh, elem_of_cons.
    split; [tauto|]. intros [[->|?] ?]; [done|tauto].
  - exists a', (v :: fresh). split; [done|].
    assert (∀ x, x ∈ array a1 ↔ x = v ∨ x ∈ array a) as Hmem.
    { intros x. by rewrite Hperm1, elem_of_cons. }
    split; [|split].
    + constructor; [|done]. rewrite Hfresh, Hmem.
      intros [_ Hv]. apply Hv. by left.
    + intros x. rewrite !elem_of_cons, Hfresh, Hmem.
      destruct (decide (x = v)) as [->|Hne]; [|tauto].
      split; [intros _; split; [by left|done]|by left].
    + rewrite Hperm, Hperm1. simpl. by rewrite Permutation_middle.
Qed.
End Add_facts.

(** ** The sorted container: [Add], uniqueness, [Search] *)

Section sorted_container.
Import SortedStringArray.

(** A new container is sorted, under a total comparator, with
    uniqueness off. *)
Lemma NewSortedStringArray_invariant (unsafe : list bool) :
  TotalComparator (comparator (NewSortedStringArray unsafe)) ∧
  sorted (NewSortedStringArray unsafe) ∧
  unique (NewSortedStringArray unsafe) = false.
Proof.
  split; [apply strings_Compare_total|]. split; [constructor|done].
Qed.

Lemma Add_calls_sorted calls : ∀ a `{!TotalComparator (comparator a)},
  sorted a → 2 * (len (array a) + len (concat calls)) ≤ max_int →
  ∃ a', Add_calls a calls = Ret a' ∧ sorted a'.
Proof.
  induction calls as [|values calls IH]; intros a Hcmp Hsorted Hsmall; simpl.
  { by exists a. }
  simpl in Hsmall. rewrite len_app in Hsmall.
  pose proof (len_nonneg (concat calls)). pose proof (len_nonneg values).
  rewrite Add_is_loop.
  destruct (Add_loop_sorted values a Hsorted ltac:(lia))
    as (a1 & -> & Hs1 & Hc1 & _ & _ & Hl1 & _).
  simpl. apply IH; [by rewrite Hc1|done|lia].
Qed.

Lemma len_concat_take (calls : list (list string)) (k : nat) :
  len (concat (take k calls)) ≤ len (concat calls).
Proof.
  rewrite <- (take_drop k calls) at 2. rewrite concat_app, len_app.
  pose proof (len_nonneg (concat (drop k calls))). lia.
Qed.

(** Where one round of [Add] puts the value: at the index located by
    [binSearch] when the value sorts before the element there (or
    equals it), just after that index when it sorts after it. *)
Lemma Add_value_position (a : t) (value : string) (index cmp : Z) :
  len (array a) ≤ max_int →
  binSearch a value false = Ret (index, cmp) →
  0 ≤ index < len (array a) →
  (unique a && (cmp =? 0)) = false →
  let i := Z.to_nat (if 0 <? cmp then index + 1 else index) in
  Add_value a value
  = Ret (with_array a (take i (array a) ++ value :: drop i (array a))).
Proof.
  intros Hsmall Hsearch Hindex Hskip. simpl. unfold Add_value.
  rewrite Hsearch. simpl. rewrite Hskip.
  destruct (Z.ltb_spec index 0) as [|_]; [lia|].
  assert ((if 0 <? cmp then add index 1 else index)
          = (if 0 <? cmp then index + 1 else index)) as ->.
  { destruct (0 <? cmp); [|done].
    apply wrap_id. unfold min_int, max_int in *. lia. }
  assert (0 ≤ (if 0 <? cmp then index + 1 else index) ≤ len (array a)) as Hi.
  { destruct (0 <? cmp); lia. }
  rewrite slice_from_in_range by done. simpl.
  rewrite slice_in_range by lia. simpl.
  by rewrite Z.sub_0_r, drop_0, <- app_assoc.
Qed.

(** One round of [Add] on a sorted container: what [binSearch]
    locates, and where the value goes from there. *)
Lemma Add_value_placed (a : t) (value : string)
    `{!TotalComparator (comparator a)} :
  sorted a → 2 * len (array a) ≤ max_int →
  ∃ index cmp a',
    binSearch a value false = Ret (index, cmp) ∧
    Add_value a value = Ret a' ∧
    sorted a' ∧ comparator a' = comparator a ∧
    len (array a') ≤ len (array a) + 1 ∧
    (array a = [] → array a' = [value]) ∧
    (array a ≠ [] →
     ∃ x, 0 ≤ index ∧ array a !! Z.to_nat index = Some x ∧
          cmp = comparator a value x ∧
          (unique a = true ∧ cmp = 0 → a' = a) ∧
          (¬ (unique a = true ∧ cmp = 0) →
           (0 < cmp →
            array a' = take (Z.to_nat index + 1) (array a)
                         ++ value :: drop (Z.to_nat index + 1) (array a)) ∧
           (cmp ≤ 0 →
            array a' = take (Z.to_nat index) (array a)
                         ++ value :: drop (Z.to_nat index) (array a)))).
Proof.
  intros Hsorted Hsmall.
  destruct (Add_value_sorted a value Hsorted Hsmall)
    as (a' & Hrun & Hs' & Hc' & _ & _ & Hl' & _).
  pose proof (len_nonneg (array a)) as Hnn.
  destruct (decide (array a = [])) as [Hnil|Hne].
  - exists (-1), (-2), a'. rewrite binSearch_empty by done.
    split; [done|]. split; [done|]. split; [done|]. split; [done|].
    split; [done|]. split; [|done].
    intros _. revert Hrun. unfold Add_value.
    rewrite binSearch_empty by done. simpl. rewrite andb_false_r. simpl.
    intros [= <-]. simpl. by rewrite Hnil.
  - assert (StronglySorted (le_by (comparator a)) (array a)) as Hss.
    { apply Sorted_StronglySorted; [apply _|done]. }
    destruct (binSearch_ok a Hss Hsmall value false Hne)
      as (mid & c & Hbs & Hpost).
    pose proof Hpost as (Hmid & (x & Hx & Hc) & _).
    exists mid, c, a'.
    split; [done|]. split; [done|]. split; [done|]. split; [done|].
    split; [done|]. split; [done|].
    intros _. exists x. split; [lia|]. split; [done|]. split; [done|].
    split.
    + intros [Hu Hc0]. revert Hrun. unfold Add_value. rewrite Hbs. simpl.
      rewrite Hu, Hc0. simpl. by intros [= <-].
    + intros Hnot.
      assert ((unique a && (c =? 0)) = false) as Hskip.
      { destruct (unique a) eqn:Hu, (Z.eqb_spec c 0); simpl; try done.
        by destruct Hnot. }
      pose proof (Add_value_position a value mid c ltac:(lia) Hbs Hmid Hskip)
        as Hpos.
      cbv zeta in Hpos. rewrite Hrun in Hpos. injection Hpos as ->.
      split.
      * intros Hgt. destruct (Z.ltb_spec 0 c); [|lia]. simpl.
        by replace (Z.to_nat (mid + 1)) with (Z.to_nat mid + 1)%nat by lia.
      * intros Hle. by destruct (Z.ltb_spec 0 c); [lia|].
Qed.

(** C1.  [Add] keeps a sorted container sorted: within one call
    [Add(values...)] the array is sorted after each individual
    insertion (after the first [k] values, for every [k], the rest of
    the call continuing from that state), and along any sequence of
    [Add] calls it is sorted after every call (after the first [k]
    calls, for every [k]).  The [k]-th value of a call is placed from
    what [binSearch] locates in the array as the values before it left
    it: into an empty array it is appended; otherwise [binSearch]
    gives an index and the comparison [cmp] of the value with the
    element there, and the value goes in immediately after that index
    when [cmp > 0] and immediately before it when [cmp <= 0], the
    elements on both sides staying as they are; with uniqueness on and
    [cmp = 0] the value is skipped.  The lengths involved are such
    that twice the final length is an [int], which the midpoint
    [min + max] of the binary search needs. *)
Theorem Add_keeps_sorted (a : t) `{!TotalComparator (comparator a)} :
  sorted a →
  (∀ (values : list string) (k : nat),
     2 * (len (array a) + len values) ≤ max_int →
     ∃ a_k, Add_loop (take k values) a = Ret a_k ∧ sorted a_k ∧
            Add a values = Add_loop (drop k values) a_k) ∧
  (∀ (values : list string) (k : nat) (value : string),
     2 * (len (array a) + len values) ≤ max_int →
     values !! k = Some value →
     ∃ a_k index cmp a_k1,
       Add_loop (take k values) a = Ret a_k ∧ sorted a_k ∧
       binSearch a_k value false = Ret (index, cmp) ∧
       Add_loop (take (S k) values) a = Ret a_k1 ∧ sorted a_k1 ∧
       Add a values = Add_loop (drop (S k) values) a_k1 ∧
       (array a_k = [] → array a_k1 = [value]) ∧
       (array a_k ≠ [] →
        ∃ x, 0 ≤ index ∧ array a_k !! Z.to_nat index = Some x ∧
             cmp = comparator a_k value x ∧
             (unique a_k = true ∧ cmp = 0 → a_k1 = a_k) ∧
             (¬ (unique a_k = true ∧ cmp = 0) →
              (0 < cmp →
               array a_k1
               = take (Z.to_nat index + 1) (array a_k)
                   ++ value :: drop (Z.to_nat index + 1) (array a_k)) ∧
              (cmp ≤ 0 →
               array a_k1
               = take (Z.to_nat index) (array a_k)
                   ++ value :: drop (Z.to_nat index) (array a_k))))) ∧
  (∀ (calls : list (list string)) (k : nat),
     2 * (len (array a) + len (concat calls)) ≤ max_int →
     ∃ a_k, Add_calls a (take k calls) = Ret a_k ∧ sorted a_k).
Proof.
  intros Hsorted. split; [|split].
  - intros values k Hsmall.
    destruct (Add_loop_sorted (take k values) a Hsorted)
      as (a_k & Hrun & Hs & _).
    { unfold len in *. rewrite length_take. lia. }
    exists a_k. split; [done|]. split; [done|].
    rewrite Add_is_loop. rewrite <- (take_drop k values) at 1.
    by rewrite Add_loop_app, Hrun.
  - intros values k value Hsmall Hk.
    assert (len (take k values) ≤ len values) as Htake.
    { unfold len. rewrite length_take. lia. }
    destruct (Add_loop_sorted (take k values) a Hsorted ltac:(lia))
      as (a_k & Hrun & Hs & Hc & _ & _ & Hl & _).
    assert (TotalComparator (comparator a_k)) as Hcmp by (by rewrite Hc).
    destruct (Add_value_placed a_k value Hs ltac:(lia))
      as (index & cmp & a_k1 & Hbs & Hadd & Hs1 & _ & _ & Hempty & Hplaced).
    assert (Add_loop (take (S k) values) a = Ret a_k1) as Hrun1.
    { rewrite (take_S_r _ _ _ Hk), Add_loop_app, Hrun. simpl.
      by rewrite Hadd. }
    exists a_k, index, cmp, a_k1.
    split; [done|]. split; [done|]. split; [done|]. split; [done|].
    split; [done|]. split; [|by split].
    rewrite Add_is_loop. rewrite <- (take_drop (S k) values) at 1.
    by rewrite Add_loop_app, Hrun1.
  - intros calls k Hsmall. apply Add_calls_sorted; [done..|].
    pose proof (len_concat_take calls k). lia.
Qed.

(** With uniqueness on, values that are all present change nothing. *)
Lemma Add_present_unchanged values : ∀ a `{!TotalComparator (comparator a)},
  sorted a → unique a = true → 2 * len (array a) ≤ max_int →
  (∀ v, v ∈ values → v ∈ array a) → Add a values = Ret a.
Proof.
  intros a Hcmp Hsorted Hu Hsmall. rewrite Add_is_loop.
  induction values as [|v values IH]; intros Hin; simpl; [done|].
  destruct (Add_value_sorted a v Hsorted Hsmall)
    as (a1 & -> & _ & _ & _ & _ & _ & Hsame & _).
  rewrite (Hsame Hu) by (apply Hin; left).
  simpl. apply IH. intros v' Hv'. apply Hin. by right.
Qed.

(** C5.  On a sorted container with the uniqueness flag on: a value
    whose binary search is exact is skipped; adding values that are
    already present leaves the container unchanged; [Add] produces no
    two adjacent equal elements when there were none before, the array
    gaining exactly one copy of each value that was absent; and
    [SetUnique(true)] on [["a","a","b"]], uniqueness off, gives
    [["a","b"]] with uniqueness on. *)
Theorem unique_Add_idempotent (a : t) `{!TotalComparator (comparator a)} :
  sorted a → unique a = true →
  (∀ value i, binSearch a value false = Ret (i, 0) → Add a [value] = Ret a) ∧
  (∀ values, 2 * len (array a) ≤ max_int →
     (∀ v, v ∈ values → v ∈ array a) → Add a values = Ret a) ∧
  (∀ values, 2 * (len (array a) + len values) ≤ max_int →
     no_adjacent_equal (array a) →
     ∃ a', Add a values = Ret a' ∧ sorted a' ∧ unique a' = true ∧
           no_adjacent_equal (array a')) ∧
  (∀ values, 2 * (len (array a) + len values) ≤ max_int →
     ∃ a' fresh, Add a values = Ret a' ∧ NoDup fresh ∧
       (∀ x, x ∈ fresh ↔ x ∈ values ∧ x ∉ array a) ∧
       array a' ≡ₚ fresh ++ array a) ∧
  (∀ safe, SetUnique (mk safe ["a"; "a"; "b"]%string false strings_Compare) true
           = Ret (mk safe ["a"; "b"]%string true strings_Compare)).
Proof.
  intros Hsorted Hu. split; [|split; [|split; [|split]]].
  - intros value i Hsearch. unfold Add. simpl. unfold Add_value.
    rewrite Hsearch. simpl. by rewrite Hu.
  - intros values Hsmall Hin. by apply Add_present_unchanged.
  - intros values Hsmall Hnae. rewrite Add_is_loop.
    destruct (Add_loop_sorted values a Hsorted Hsmall)
      as (a' & Hrun & Hs' & _ & Hu' & _ & _ & Hn').
    exists a'. split; [done|]. split; [done|]. split; [congruence|by apply Hn'].
  - intros values Hsmall. rewrite Add_is_loop. by apply Add_loop_unique.
  - by intros [].
Qed.

(** C6.  On a sorted container [Search(v)] returns an index holding
    [v] exactly when [v] is present, and [-1] otherwise; on an empty
    container [binSearch] returns the pair [(-1, -2)] without reading
    any element, and [Search] returns [-1]. *)
Theorem Search_finds_exactly (a : t) (value : string)
    `{!TotalComparator (comparator a)} :
  sorted a → 2 * len (array a) ≤ max_int →
  (∃ i, Search a value = Ret i ∧
        ((value ∈ array a ∧ 0 ≤ i < len (array a) ∧
          index (array a) i = Ret value) ∨
         ((value ∉ array a) ∧ i = (-1)))) ∧
  (array a = [] →
   binSearch a value true = Ret (-1, -2) ∧ Search a value = Ret (-1)).
Proof.
  intros Hsorted Hsmall.
  apply Sorted_StronglySorted in Hsorted; [|apply _].
  assert (array a = [] →
          binSearch a value true = Ret (-1, -2) ∧ Search a value = Ret (-1))
    as Hempty.
  { intros Hnil. unfold Search. by rewrite binSearch_empty. }
  split; [|done].
  destruct (decide (array a = [])) as [Hnil|Hne].
  { exists (-1). split; [by apply Hempty|]. right. split; [|done].
    rewrite Hnil. apply not_elem_of_nil. }
  unfold Search.
  destruct (binSearch_ok a Hsorted Hsmall value true Hne) as (mid & c & -> & Hpost).
  simpl. destruct (Z.eqb_spec c 0) as [Hc|Hc].
  - exists mid. split; [done|]. left.
    pose proof (binSearch_post_hit a value mid c Hpost Hc) as Hhit.
    destruct Hpost as (Hmid & _).
    split; [by eapply list_elem_of_lookup_2|]. split; [done|].
    apply index_Ret; [lia|done].
  - exists (-1). split; [done|]. right. split; [|done].
    by eapply binSearch_post_miss.
Qed.
End sorted_container.

(** ** [Range], [SubSlice], [Rands] *)

Section generic_facts.
Context {A : Type} `{!ZeroValue A}.
Implicit Types (arr : list A).

Lemma add_id x y : min_int ≤ x + y ≤ max_int → add x y = x + y.
Proof. apply wrap_id. Qed.

Lemma sub_id x y : min_int ≤ x - y ≤ max_int → sub x y = x - y.
Proof. apply wrap_id. Qed.

Lemma neg_id x : min_int < x ≤ max_int → neg x = - x.
Proof. intros Hx. apply wrap_id. unfold min_int, max_int in *. lia. Qed.

Lemma make_Ret (n : Z) :
  0 ≤ n → make (A:=A) n = Ret (replicate (Z.to_nat n) zero_value).
Proof. intros Hn. unfold make. destruct (Z.ltb_spec n 0); [lia|done]. Qed.

Lemma make_negative (n : Z) :
  n < 0 → make (A:=A) n = Panic MakeLenOutOfRange.
Proof. intros Hn. unfold make. destruct (Z.ltb_spec n 0); [done|lia]. Qed.

(** Copying into a fresh buffer no longer than the source takes a
    prefix of the source. *)
Lemma copy_fresh (k : nat) (z : A) (src : list A) :
  (k ≤ length src)%nat → copy (replicate k z) src = take k src.
Proof.
  intros Hk. unfold copy. rewrite length_replicate.
  rewrite drop_ge by (rewrite length_replicate; lia).
  by rewrite app_nil_r.
Qed.

(** The window a safe container copies and an unsafe one aliases. *)
Lemma window_copy (safe : bool) arr (lo hi size : Z) :
  0 ≤ lo ≤ hi → hi ≤ len arr → size = hi - lo →
  (if safe then
     s ← make size; src ← slice_from arr lo; Ret (copy s src)
   else slice arr lo hi)
  = Ret (take (Z.to_nat (hi - lo)) (drop (Z.to_nat lo) arr)).
Proof.
  intros Hlo Hhi ->. destruct safe.
  - rewrite make_Ret by lia. simpl.
    rewrite slice_from_in_range by lia. simpl.
    rewrite copy_fresh; [done|]. rewrite length_drop. unfold len in *. lia.
  - by apply slice_in_range.
Qed.

Lemma SubSlice_is_window (safe : bool) arr (offset : Z) (length : list Z) :
  2 * len arr ≤ max_int →
  min_int ≤ offset ≤ max_int →
  (∀ l0, head length = Some l0 → min_int ≤ l0 ≤ max_int - len arr) →
  garray.SubSlice safe arr offset length
  = Ret (SubSlice_window arr offset length).
Proof.
  intros Hsmall Hoff Hlen.
  pose proof (len_nonneg arr) as Hn.
  unfold garray.SubSlice, SubSlice_window.
  destruct (Z.ltb_spec (len arr) offset) as [Hbeyond|Hwithin]; [done|].
  simpl.
  assert ((if offset <? 0 then add (len arr) offset else offset)
          = (if offset <? 0 then len arr + offset else offset)) as ->.
  { destruct (Z.ltb_spec offset 0); [|done].
    apply add_id. unfold min_int, max_int in *. lia. }
  set (start := if offset <? 0 then len arr + offset else offset).
  assert (start ≤ len arr) as Hstart.
  { subst start. destruct (Z.ltb_spec offset 0); lia. }
  destruct (Z.ltb_spec start 0) as [Hneg|Hnn].
  { assert ((offset <? 0) = true) as ->; [|done].
    subst start. destruct (Z.ltb_spec offset 0); [done|lia]. }
  rewrite andb_false_r.
  destruct length as [|l0 length'].
  - (* no length given: the rest of the array *)
    destruct (Z.ltb_spec (len arr) 0) as [|_]; [lia|]. simpl.
    rewrite add_id by (unfold min_int, max_int in *; lia).
    destruct (Z.ltb_spec (len arr) (start + len arr)).
    + rewrite sub_id by (unfold min_int, max_int in *; lia).
      rewrite (window_copy safe arr start (len arr) (len arr - start)) by lia.
      f_equal. apply take_ge. rewrite length_drop. unfold len. lia.
    + rewrite (window_copy safe arr start (start + len arr) (len arr)) by lia.
      f_equal. apply take_ge. rewrite length_drop. unfold len. lia.
  - specialize (Hlen l0 eq_refl).
    destruct (Z.ltb_spec l0 0) as [Hl0|Hl0].
    + (* negative length: the elements that end before the offset *)
      rewrite add_id by (unfold min_int, max_int in *; lia).
      destruct (Z.ltb_spec (start + l0) 0) as [|Hfits]; [done|]. simpl.
      rewrite neg_id by (unfold min_int, max_int in *; lia).
      rewrite add_id by (unfold min_int, max_int in *; lia).
      replace (start + l0 + - l0) with start by lia.
      destruct (Z.ltb_spec (len arr) start) as [|_]; [lia|].
      rewrite (window_copy safe arr (start + l0) start (- l0)) by lia.
      do 3 f_equal. lia.
    + (* non-negative length *)
      simpl. rewrite add_id by (unfold min_int, max_int in *; lia).
      destruct (Z.ltb_spec (len arr) (start + l0)).
      * rewrite sub_id by (unfold min_int, max_int in *; lia).
        rewrite (window_copy safe arr start (len arr) (len arr - start)) by lia.
        f_equal. rewrite !take_ge; [done|rewrite length_drop; unfold len in *; lia..].
      * rewrite (window_copy safe arr start (start + l0) l0) by lia.
        do 3 f_equal. lia.
Qed.

(** [Range] returns the interval whenever the given end is not a
    negative number at or above [start]. *)
Lemma Range_is_interval (safe : bool) arr (start : Z) (end_ : list Z) :
  len arr ≤ max_int →
  (∀ e0, head end_ = Some e0 → 0 ≤ e0 ∨ e0 < start) →
  garray.Range safe arr start end_ = Ret (Range_interval arr start end_).
Proof.
  intros Hsmall Hend. pose proof (len_nonneg arr) as Hn.
  unfold garray.Range, Range_interval.
  assert (match end_ with
          | e0 :: _ => if e0 <? len arr then e0 else len arr
          | [] => len arr
          end
          = match end_ with e0 :: _ => Z.min e0 (len arr) | [] => len arr end)
    as ->.
  { destruct end_ as [|e0 ?]; [done|]. destruct (Z.ltb_spec e0 (len arr)); lia. }
  set (stop := match end_ with e0 :: _ => Z.min e0 (len arr) | [] => len arr end).
  assert (stop ≤ len arr ∧ (0 ≤ stop ∨ stop < start)) as [Hstop Hsign].
  { subst stop. destruct end_ as [|e0 ?]; [lia|].
    destruct (Hend e0 eq_refl); lia. }
  destruct (Z.ltb_spec stop start) as [|Hle]; [done|].
  assert ((if start <? 0 then 0 else start) = Z.max start 0) as ->.
  { destruct (Z.ltb_spec start 0); lia. }
  rewrite slice_in_range by lia.
  destruct safe; [|done].
  rewrite sub_id by (unfold min_int, max_int in *; lia).
  rewrite make_Ret by lia. simpl.
  rewrite copy_fresh.
  - f_equal. apply take_ge. rewrite length_take. lia.
  - rewrite length_take, length_drop. unfold len in *. lia.
Qed.

(** A negative end at or above [start] makes [Range] panic. *)
Lemma Range_negative_end (safe : bool) arr (start e0 : Z) (end' : list Z) :
  min_int ≤ e0 → start ≤ e0 < 0 →
  garray.Range safe arr start (e0 :: end')
  = Panic (if safe then MakeLenOutOfRange else SliceBoundsOutOfRange).
Proof.
  intros Hmin He. pose proof (len_nonneg arr) as Hn.
  unfold garray.Range.
  destruct (Z.ltb_spec e0 (len arr)) as [_|]; [|lia].
  destruct (Z.ltb_spec e0 start) as [|_]; [lia|].
  destruct (Z.ltb_spec start 0) as [_|]; [|lia].
  destruct safe.
  - rewrite sub_id by (unfold min_int, max_int in *; lia).
    rewrite make_negative by lia. done.
  - apply slice_out_of_range. lia.
Qed.

(** [Rands(0)] on a non-empty array: the first round of the loop
    stores into the empty buffer. *)
Lemma Rands_zero_panics arr (perm : list Z) :
  arr ≠ [] → length perm = length arr →
  garray.Rands arr 0 perm = Panic IndexOutOfRange.
Proof.
  intros Hne Hperm. unfold garray.Rands.
  destruct (Z.ltb_spec (len arr) 0) as [Hlen|_].
  { pose proof (len_nonneg arr). lia. }
  rewrite make_Ret by lia. simpl.
  destruct perm as [|v perm].
  { destruct arr; [done|]. simpl in Hperm. lia. }
  simpl. unfold index.
  destruct (v <? 0); [done|].
  destruct (arr !! Z.to_nat v); [|done].
  reflexivity.
Qed.

Lemma is_Perm_length (perm : list Z) arr :
  is_Perm perm (len arr) → length perm = length arr.
Proof.
  unfold is_Perm. intros Hp. apply Permutation_length in Hp.
  rewrite Hp, length_seqZ. unfold len. lia.
Qed.

(** With a drawn permutation the read [array[v]] of that first round
    succeeds: the panic is the store [n[0] = ...]. *)
Lemma Rands_zero_first_round arr (v : Z) (perm : list Z) :
  is_Perm (v :: perm) (len arr) →
  (∃ x, index arr v = Ret x) ∧
  ∀ x, store (A:=A) [] 0 x = Panic IndexOutOfRange.
Proof.
  intros Hp. split; [|done].
  assert (v ∈ seqZ 0 (len arr)) as Hv.
  { unfold is_Perm in Hp. rewrite <- Hp. by left. }
  apply elem_of_seqZ in Hv.
  destruct (index_in_range arr v ltac:(lia)) as (x & _ & Hx). eauto.
Qed.
End generic_facts.

(** ** [IntArray]: [Pad] and [Fill] *)

Section IntArray_facts.
Import IntArray.

Lemma with_array_same (a : t) : with_array a (array a) = a.
Proof. by destruct a. Qed.

(** The loop of [Pad] overwrites the slots [i..n-1] of the buffer. *)
Lemma Pad_loop_fills (value n : Z) : ∀ (fuel : nat) (i : Z) (tmp : list Z),
  len tmp = n → n ≤ max_int → 0 ≤ i ≤ n → n - i ≤ Z.of_nat fuel →
  Pad_loop fuel i n value tmp
  = Ret (take (Z.to_nat i) tmp ++ replicate (Z.to_nat (n - i)) value).
Proof.
  induction fuel as [|fuel IH]; intros i tmp Hlen Hsmall Hi Hfuel; simpl;
    destruct (Z.ltb_spec i n) as [Hlt|Hge]; try lia.
  - assert (i = n) as -> by lia. rewrite Z.sub_diag. simpl.
    rewrite app_nil_r, take_ge; [done|]. unfold len in Hlen. lia.
  - rewrite store_in_range by lia. simpl.
    rewrite add_id by (unfold min_int, max_int in *; lia).
    rewrite IH; [|unfold len in *; rewrite length_insert; lia|lia..].
    f_equal.
    replace (Z.to_nat (i + 1)) with (S (Z.to_nat i)) by lia.
    rewrite (take_S_r _ _ value)
      by (apply list_lookup_insert_eq; unfold len in *; lia).
    rewrite take_insert_ge by lia.
    replace (Z.to_nat (n - i)) with (S (Z.to_nat (n - (i + 1)))) by lia.
    by rewrite <- app_assoc.
  - assert (i = n) as -> by lia. rewrite Z.sub_diag. simpl.
    rewrite app_nil_r, take_ge; [done|]. unfold len in Hlen. lia.
Qed.

Lemma Pad_result_noop (arr : list Z) (size value : Z) :
  Z.abs size ≤ len arr → Pad_result arr size value = arr.
Proof.
  intros H. unfold Pad_result.
  destruct (Z.leb_spec (Z.abs size) (len arr)); [done|lia].
Qed.

Lemma Pad_result_right (arr : list Z) (size value : Z) :
  0 < size → len arr ≤ size →
  Pad_result arr size value
  = arr ++ replicate (Z.to_nat (size - len arr)) value.
Proof.
  intros Hpos H. unfold Pad_result.
  destruct (Z.leb_spec (Z.abs size) (len arr)).
  - replace (size - len arr) with 0 by lia. simpl. by rewrite app_nil_r.
  - destruct (Z.ltb_spec 0 size); [|lia]. do 3 f_equal. lia.
Qed.

Lemma Pad_result_left (arr : list Z) (size value : Z) :
  size < 0 → len arr ≤ - size →
  Pad_result arr size value
  = replicate (Z.to_nat (- size - len arr)) value ++ arr.
Proof.
  intros Hneg H. unfold Pad_result.
  destruct (Z.leb_spec (Z.abs size) (len arr)).
  - replace (- size - len arr) with 0 by lia. done.
  - destruct (Z.ltb_spec 0 size); [lia|]. do 3 f_equal. lia.
Qed.

Lemma Pad_is_result (a : t) (size value : Z) :
  len (array a) ≤ max_int → min_int < size ≤ max_int →
  Pad a size value = Ret (with_array a (Pad_result (array a) size value)).
Proof.
  intros Hsmall Hsize. pose proof (len_nonneg (array a)) as Hn.
  unfold Pad.
  rewrite (neg_id (len (array a))) by (unfold min_int, max_int in *; lia).
  destruct (Z.eqb_spec size 0) as [->|Hnz]; simpl.
  { by rewrite Pad_result_noop, with_array_same by lia. }
  destruct (Z.ltb_spec 0 size) as [Hpos|Hneg]; simpl.
  - destruct (Z.ltb_spec size (len (array a))) as [Hlt|Hge]; simpl.
    { by rewrite Pad_result_noop, with_array_same by lia. }
    destruct (Z.ltb_spec size 0) as [|_]; [lia|]. simpl.
    rewrite sub_id by (unfold min_int, max_int in *; lia).
    rewrite make_Ret by lia. simpl.
    rewrite Pad_loop_fills;
      [|unfold len in *; rewrite length_replicate; lia|unfold min_int, max_int in *; lia..]. simpl.
    by rewrite Z.sub_0_r, Pad_result_right by lia.
  - destruct (Z.ltb_spec size 0) as [_|]; [|lia]. simpl.
    destruct (Z.ltb_spec (- len (array a)) size) as [Hlt|Hge]; simpl.
    { by rewrite Pad_result_noop, with_array_same by lia. }
    rewrite neg_id by lia.
    rewrite sub_id by (unfold min_int, max_int in *; lia).
    rewrite make_Ret by lia. simpl.
    rewrite Pad_loop_fills;
      [|unfold len in *; rewrite length_replicate; lia|unfold min_int, max_int in *; lia..]. simpl.
    by rewrite Z.sub_0_r, Pad_result_left by lia.
Qed.

Lemma Pad_result_length (arr : list Z) (size value : Z) :
  len (Pad_result arr size value) = Z.max (Z.abs size) (len arr).
Proof.
  unfold Pad_result.
  destruct (Z.leb_spec (Z.abs size) (len arr)); [lia|].
  destruct (0 <? size); rewrite len_app; unfold len;
    rewrite length_replicate; lia.
Qed.

(** The loop of [Fill], started within the array: at round [i] the
    slots [start..i-1] hold the value. *)
Lemma Fill_loop_fills (value start bound : Z) (arr : list Z) :
  0 ≤ start ≤ len arr → len arr ≤ max_int → bound ≤ max_int →
  ∀ (fuel : nat) (i : Z) (cur : list Z),
    start ≤ i ≤ bound → bound - i ≤ Z.of_nat fuel →
    cur = take (Z.to_nat start) arr ++ replicate (Z.to_nat (i - start)) value
            ++ drop (Z.to_nat i) arr →
    Fill_loop fuel i bound value cur
    = Ret (take (Z.to_nat start) arr
             ++ replicate (Z.to_nat (bound - start)) value
             ++ drop (Z.to_nat bound) arr).
Proof.
  intros Hstart Hsmall Hbound.
  induction fuel as [|fuel IH]; intros i cur Hi Hfuel Hcur; simpl;
    destruct (Z.ltb_spec i bound) as [Hlt|Hge]; try lia;
    try (assert (i = bound) as -> by lia; by rewrite Hcur).
  assert (len cur = Z.max i (len arr)) as Hlen.
  { rewrite Hcur, !len_app. unfold len in *.
    rewrite length_take, length_replicate, length_drop. lia. }
  rewrite sub_id by (unfold min_int, max_int in *; lia).
  rewrite (add_id i 1) by (unfold min_int, max_int in *; lia).
  destruct (Z.ltb_spec (len cur - 1) i) as [Hout|Hin]; simpl.
  - (* beyond the end: append *)
    apply IH; [lia..|].
    replace (Z.to_nat (i + 1 - start)) with (S (Z.to_nat (i - start))) by lia.
    rewrite Hcur. rewrite !drop_ge by (unfold len in *; lia).
    rewrite !app_nil_r, replicate_S_end. by rewrite !app_assoc.
  - (* within the array: overwrite *)
    rewrite store_in_range by lia. simpl.
    apply IH; [lia..|].
    replace (Z.to_nat (i + 1 - start)) with (S (Z.to_nat (i - start))) by lia.
    rewrite Hcur.
    destruct (lookup_lt_is_Some_2 arr (Z.to_nat i)) as [x Hx].
    { unfold len in *. lia. }
    replace (Z.to_nat (i + 1)) with (S (Z.to_nat i)) by lia.
    rewrite (drop_S _ _ _ Hx).
    rewrite (insert_app_r_alt _ _ (Z.to_nat i))
      by (rewrite length_take; unfold len in *; lia).
    rewrite (insert_app_r_alt _ _ (Z.to_nat i - _))
      by (rewrite length_take, length_replicate; unfold len in *; lia).
    replace (Z.to_nat i - length (take (Z.to_nat start) arr)
             - length (replicate (Z.to_nat (i - start)) value))%nat
      with 0%nat
      by (rewrite length_take, length_replicate; unfold len in *; lia).
    rewrite replicate_S_end. simpl. by rewrite <- app_assoc.
Qed.

(** [Fill] from a start at most the length. *)
Lemma Fill_is_result (a : t) (startIndex num value : Z) :
  len (array a) ≤ max_int → min_int ≤ startIndex ≤ len (array a) →
  0 ≤ num → Z.max startIndex 0 + num ≤ max_int →
  Fill a startIndex num value
  = Ret (with_array a (Fill_result (array a) startIndex num value)).
Proof.
  intros Hsmall Hstart Hnum Hsum. pose proof (len_nonneg (array a)) as Hn.
  unfold Fill, Fill_result.
  assert ((if startIndex <? 0 then 0 else startIndex) = Z.max startIndex 0) as ->.
  { destruct (Z.ltb_spec startIndex 0); lia. }
  remember (Z.max startIndex 0) as start eqn:Hs.
  rewrite add_id by (unfold min_int, max_int in *; lia).
  rewrite (Fill_loop_fills value start (start + num) (array a)
             ltac:(lia) Hsmall Hsum _ start (array a)); [| lia | lia |].
  - simpl. by replace (start + num - start) with num by lia.
  - rewrite Z.sub_diag. simpl. by rewrite take_drop.
Qed.

Lemma Fill_result_slots (arr : list Z) (startIndex num value i : Z) :
  startIndex ≤ len arr → 0 ≤ num →
  Z.max startIndex 0 ≤ i < Z.max startIndex 0 + num →
  index (Fill_result arr startIndex num value) i = Ret value.
Proof.
  intros Hstart Hnum Hi. pose proof (len_nonneg arr) as Hn.
  apply index_Ret; [lia|]. unfold Fill_result.
  remember (Z.max startIndex 0) as start eqn:Hs.
  rewrite lookup_app_r by (rewrite length_take; unfold len in *; lia).
  rewrite lookup_app_l
    by (rewrite length_take, length_replicate; unfold len in *; lia).
  apply lookup_replicate_2.
  rewrite length_take. unfold len in *. lia.
Qed.
End IntArray_facts.

(** ** Windows: [SubSlice] and [Range] *)

Section windows.

(** Where [SubSlice] returns the window the claim describes: with no
    length, or with a length [l >= 0] whose sum with the container
    length is an [int], it gives the elements from the offset on (a
    negative offset counting from the end), at most [l] of them, cut
    at the end of the array; an offset beyond the length, or a start
    before index 0, gives the empty window.  This holds for both
    containers and both mutex modes. *)
Lemma SubSlice_window_from_offset
    (ia : IntArray.t) (sa : SortedStringArray.t)
    (offset : Z) (length : list Z) :
  2 * len (IntArray.array ia) ≤ max_int →
  2 * len (SortedStringArray.array sa) ≤ max_int →
  min_int ≤ offset ≤ max_int →
  (∀ l0, head length = Some l0 →
         0 ≤ l0 ∧
         l0 ≤ max_int - len (IntArray.array ia) ∧
         l0 ≤ max_int - len (SortedStringArray.array sa)) →
  IntArray.SubSlice ia offset length
    = Ret (SubSlice_window (IntArray.array ia) offset length) ∧
  SortedStringArray.SubSlice sa offset length
    = Ret (SubSlice_window (SortedStringArray.array sa) offset length).
Proof.
  intros Hia Hsa Hoff Hlen. split.
  - apply SubSlice_is_window; [done..|].
    intros l0 Hl0. destruct (Hlen l0 Hl0) as (? & ? & ?).
    unfold min_int. lia.
  - apply SubSlice_is_window; [done..|].
    intros l0 Hl0. destruct (Hlen l0 Hl0) as (? & ? & ?).
    unfold min_int. lia.
Qed.

(** C3 (the code departs from the claim).  With a negative length
    [SubSlice] moves the offset left by [|length|] and takes
    [|length|] elements from there, the elements that end just before
    the offset, instead of a window from the offset that stops short of
    the end: [SubSlice(1,-1)] on [[1,2,3,4,5]] is [[1]], in both mutex
    modes and for both containers, where the claim has [[2,3]] and the
    documentation of the function ("the sequence will stop that many
    elements from the end of the array") has [[2,3,4]].  Nor is the
    window always clamped to the bounds: the end [offset + length] is
    computed before the clamping and wraps around for a large length,
    so [SubSlice(1, MaxInt64)] in unsafe mode slices
    [array[1:MinInt64]] and panics.  The other example of the claim,
    [SubSlice(-2,2)] giving [[4,5]], holds. *)
Theorem SubSlice_negative_length_before_offset (safe : bool) :
  IntArray.SubSlice (IntArray.mk safe [1; 2; 3; 4; 5]) 1 [-1] = Ret [1] ∧
  IntArray.SubSlice (IntArray.mk safe [1; 2; 3; 4; 5]) 1 [-1] ≠ Ret [2; 3] ∧
  IntArray.SubSlice (IntArray.mk safe [1; 2; 3; 4; 5]) 1 [-1]
    ≠ Ret [2; 3; 4] ∧
  SortedStringArray.SubSlice
    (SortedStringArray.mk safe ["a"; "b"; "c"; "d"; "e"]%string false
       strings_Compare) 1 [-1]
    = Ret ["a"]%string ∧
  IntArray.SubSlice (IntArray.mk false [1; 2; 3; 4; 5]) 1 [max_int]
    = Panic SliceBoundsOutOfRange ∧
  IntArray.SubSlice (IntArray.mk safe [1; 2; 3; 4; 5]) (-2) [2] = Ret [4; 5].
Proof.
  split; [by destruct safe|]. split; [by destruct safe|].
  split; [by destruct safe|]. split; [by destruct safe|].
  split; [by vm_compute|by destruct safe].
Qed.

(** Where [Range] does return the interval of its documentation: for
    every start, and every end that is not a negative number at or
    above the start. *)
Lemma Range_interval_correct (a : IntArray.t) (start : Z) (end_ : list Z) :
  len (IntArray.array a) ≤ max_int →
  (∀ e0, head end_ = Some e0 → 0 ≤ e0 ∨ e0 < start) →
  IntArray.Range a start end_
  = Ret (Range_interval (IntArray.array a) start end_).
Proof. apply Range_is_interval. Qed.

(** C4 (the code departs from the claim).  With a negative end at or
    above the start, [Range] panics where the interval of the claim is
    empty: [Range(-3, -1)] on [[10,20,30,40]] asks [make] for a
    negative length in safe mode and slices [array[0:-1]] in unsafe
    mode.  The three examples of the claim hold. *)
Theorem Range_negative_end_faults :
  IntArray.Range (IntArray.mk true [10; 20; 30; 40]) (-3) [-1]
    = Panic MakeLenOutOfRange ∧
  IntArray.Range (IntArray.mk false [10; 20; 30; 40]) (-3) [-1]
    = Panic SliceBoundsOutOfRange ∧
  Range_interval [10; 20; 30; 40] (-3) [-1] = [] ∧
  (∀ safe,
     IntArray.Range (IntArray.mk safe [10; 20; 30; 40]) 1 [3] = Ret [20; 30] ∧
     IntArray.Range (IntArray.mk safe [10; 20; 30; 40]) 1 [] = Ret [20; 30; 40] ∧
     IntArray.Range (IntArray.mk safe [10; 20; 30; 40]) 5 [] = Ret []).
Proof. repeat split; try done; by destruct safe. Qed.
End windows.

(** ** [IntArray]: [Unique], [Fill], [Pad] *)

Section int_array.
Import IntArray.

(** C2 (the code departs from the claim).  [Unique] steps over the
    element that moves into the place of a removed one: on [[1,1,1]] it
    returns [[1,1]], two equal elements.  On the example of the claim,
    [[3,1,3,2,1]], it returns [[3,1,2]]. *)
Theorem Unique_skips_after_removal (safe : bool) :
  Unique (mk safe [1; 1; 1]) = Ret (mk safe [1; 1]) ∧
  ¬ NoDup [1; 1] ∧
  Unique (mk safe [3; 1; 3; 2; 1]) = Ret (mk safe [3; 1; 2]).
Proof.
  split; [by destruct safe|]. split; [|by destruct safe].
  intros Hnd. apply NoDup_cons in Hnd as [Hnotin _].
  apply Hnotin. by left.
Qed.

(** Where [Fill] does what the claim says: from a start at most the
    length, the [num] slots from [max(startIndex, 0)] on hold the
    value. *)
Lemma Fill_within_length (a : t) (startIndex num value : Z) :
  len (array a) ≤ max_int → min_int ≤ startIndex ≤ len (array a) →
  1 ≤ num → Z.max startIndex 0 + num ≤ max_int →
  ∃ a', Fill a startIndex num value = Ret a' ∧
    ∀ i, Z.max startIndex 0 ≤ i < Z.max startIndex 0 + num →
         index (array a') i = Ret value.
Proof.
  intros Hsmall Hstart Hnum Hsum. eexists. split.
  - apply Fill_is_result; [done..|lia|done].
  - intros i Hi. simpl. apply Fill_result_slots; lia.
Qed.

(** C7 (the code departs from the claim).  From a start beyond the
    length [Fill] appends at the end instead of filling from the start
    index: [Fill(3, 2, 9)] on [[1]] gives [[1,9,9]], which has no slots
    3 and 4. *)
Theorem Fill_beyond_length_appends (safe : bool) :
  Fill (mk safe [1]) 3 2 9 = Ret (mk safe [1; 9; 9]) ∧
  index [1; 9; 9] 3 = Panic IndexOutOfRange ∧
  index [1; 9; 9] 4 = Panic IndexOutOfRange.
Proof. split; [by destruct safe|done]. Qed.

(** C8.  [Pad(size, value)] leaves the container unchanged when
    [|size|] is at most the length; otherwise it appends copies of
    [value] for a positive [size] and prepends them for a negative one,
    up to the length [|size|].  [Pad(7,0)] on [[1,2,3]] is
    [[1,2,3,0,0,0,0]], [Pad(-7,0)] is [[0,0,0,0,1,2,3]], and [Pad(2,0)]
    changes nothing.  ([size] is an [int] whose absolute value is an
    [int].) *)
Theorem Pad_grows_to_size (a : t) (size value : Z) :
  len (array a) ≤ max_int → min_int < size ≤ max_int →
  (∃ a', Pad a size value = Ret a' ∧
     mu_safe a' = mu_safe a ∧
     (Z.abs size ≤ len (array a) → a' = a) ∧
     (len (array a) < size →
      array a' = array a ++ replicate (Z.to_nat (size - len (array a))) value) ∧
     (size < - len (array a) →
      array a' = replicate (Z.to_nat (- size - len (array a))) value ++ array a) ∧
     (len (array a) < Z.abs size → len (array a') = Z.abs size)) ∧
  (∀ safe, Pad (mk safe [1; 2; 3]) 7 0 = Ret (mk safe [1; 2; 3; 0; 0; 0; 0]) ∧
           Pad (mk safe [1; 2; 3]) (-7) 0 = Ret (mk safe [0; 0; 0; 0; 1; 2; 3]) ∧
           Pad (mk safe [1; 2; 3]) 2 0 = Ret (mk safe [1; 2; 3])).
Proof.
  intros Hsmall Hsize. pose proof (len_nonneg (array a)) as Hn. split.
  - eexists. split; [by apply Pad_is_result|]. simpl.
    split; [done|]. split; [|split; [|split]].
    + intros H. by rewrite Pad_result_noop, with_array_same.
    + intros H. apply Pad_result_right; lia.
    + intros H. apply Pad_result_left; lia.
    + intros H. rewrite Pad_result_length. lia.
  - by intros [].
Qed.
End int_array.

(** ** Panics: [Unique] on the empty sorted container, [Rands(0)] *)

Section panics.

(** C9.  On an empty sorted container the loop of [Unique] reads
    [array[0]] in its first round, the test [i == len(a.array)-1] being
    [0 == -1]: an index out of range.  [SetUnique(true)] with the flag
    off before calls [Unique] and panics the same way. *)
Theorem sorted_Unique_empty_faults
    (safe u : bool) (cmp : string → string → Z) :
  (∀ fuel, SortedStringArray.Unique_loop (S fuel) cmp 0 []
           = Panic IndexOutOfRange) ∧
  SortedStringArray.Unique (SortedStringArray.mk safe [] u cmp)
    = Panic IndexOutOfRange ∧
  SortedStringArray.SetUnique (SortedStringArray.mk safe [] false cmp) true
    = Panic IndexOutOfRange.
Proof. repeat split. Qed.

(** C10.  [Rands(0)] on a non-empty container, of either kind, panics
    with an index out of range: the first round of the loop stores
    into the buffer of length 0 before the test [i == size-1]. *)
Theorem Rands_zero_faults
    (ia : IntArray.t) (sa : SortedStringArray.t) (perm_i perm_s : list Z) :
  IntArray.array ia ≠ [] →
  is_Perm perm_i (len (IntArray.array ia)) →
  SortedStringArray.array sa ≠ [] →
  is_Perm perm_s (len (SortedStringArray.array sa)) →
  IntArray.Rands ia 0 perm_i = Panic IndexOutOfRange ∧
  SortedStringArray.Rands sa 0 perm_s = Panic IndexOutOfRange.
Proof.
  intros Hia Hpi Hsa Hps. split.
  - apply Rands_zero_panics; [done|]. by apply is_Perm_length.
  - apply Rands_zero_panics; [done|]. by apply is_Perm_length.
Qed.
End panics.

(** ** The theorems at sample containers *)

Section samples.

Lemma sample_sorted_is_sorted : sorted sample_sorted.
Proof. unfold sorted. simpl. repeat constructor. by vm_compute. Qed.

Lemma sample_unique_is_sorted : sorted sample_unique.
Proof. unfold sorted. simpl. repeat constructor. by vm_compute. Qed.

Lemma Add_keeps_sorted_witness :
  sorted sample_sorted ∧
  (∃ a_1, SortedStringArray.Add_loop ["c"]%string sample_sorted = Ret a_1 ∧
          sorted a_1 ∧
          SortedStringArray.Add sample_sorted ["c"; "a"]%string
          = SortedStringArray.Add_loop ["a"]%string a_1) ∧
  (∃ a_1 index cmp a_2,
     SortedStringArray.Add_loop ["c"]%string sample_sorted = Ret a_1 ∧
     SortedStringArray.binSearch a_1 "a"%string false = Ret (index, cmp) ∧
     SortedStringArray.Add_loop ["c"; "a"]%string sample_sorted = Ret a_2 ∧
     sorted a_2) ∧
  (∃ a_2, Add_calls sample_sorted [["c"; "a"]; ["e"]]%string = Ret a_2 ∧
          sorted a_2).
Proof.
  pose proof sample_sorted_is_sorted as Hs. split; [exact Hs|].
  destruct (@Add_keeps_sorted sample_sorted strings_Compare_total Hs)
    as (Hvalues & Hplaced & Hcalls).
  split; [|split].
  - apply (Hvalues ["c"; "a"]%string 1%nat). by vm_compute.
  - destruct (Hplaced ["c"; "a"]%string 1%nat "a"%string)
      as (a_1 & index & cmp & a_2 & H1 & _ & Hbs & H2 & Hs2 & _);
      [by vm_compute|reflexivity|].
    exists a_1, index, cmp, a_2.
    split; [exact H1|]. split; [exact Hbs|]. split; [exact H2|exact Hs2].
  - apply (Hcalls [["c"; "a"]; ["e"]]%string 2%nat). by vm_compute.
Defined.

Lemma unique_Add_idempotent_witness :
  sorted sample_unique ∧ SortedStringArray.unique sample_unique = true ∧
  SortedStringArray.Add sample_unique ["b"; "a"]%string = Ret sample_unique ∧
  (∃ a', SortedStringArray.Add sample_unique ["c"; "a"; "c"]%string = Ret a' ∧
         sorted a' ∧ SortedStringArray.unique a' = true ∧
         no_adjacent_equal (SortedStringArray.array a')).
Proof.
  pose proof sample_unique_is_sorted as Hs. split; [exact Hs|].
  split; [reflexivity|].
  destruct (@unique_Add_idempotent sample_unique strings_Compare_total Hs eq_refl)
    as (_ & Hpresent & Hfresh & _).
  split.
  - apply Hpresent; [by vm_compute|].
    intros v Hv. simpl.
    apply elem_of_cons in Hv as [->|Hv]; [by right; left|].
    apply elem_of_cons in Hv as [->|Hv]; [by left|].
    by apply elem_of_nil in Hv.
  - apply Hfresh; [by vm_compute|].
    intros i x y Hx Hy. simpl in Hx, Hy.
    destruct i as [|[|i]]; cbn in Hx, Hy; simplify_eq; done.
Defined.

Lemma Search_finds_exactly_witness :
  sorted sample_sorted ∧
  2 * len (SortedStringArray.array sample_sorted) ≤ max_int ∧
  ∃ i, SortedStringArray.Search sample_sorted "d"%string = Ret i ∧
       (("d"%string ∈ SortedStringArray.array sample_sorted ∧
         0 ≤ i < len (SortedStringArray.array sample_sorted) ∧
         index (SortedStringArray.array sample_sorted) i = Ret "d"%string) ∨
        (("d"%string ∉ SortedStringArray.array sample_sorted) ∧ i = (-1))).
Proof.
  pose proof sample_sorted_is_sorted as Hs. split; [exact Hs|].
  assert (2 * len (SortedStringArray.array sample_sorted) ≤ max_int) as Hsmall
    by (by vm_compute).
  split; [exact Hsmall|].
  exact (proj1 (@Search_finds_exactly sample_sorted "d"%string
                  strings_Compare_total Hs Hsmall)).
Defined.

Lemma Pad_grows_to_size_witness :
  ∃ a', IntArray.Pad sample_ints (-7) 0 = Ret a' ∧
        len (IntArray.array a') = 7.
Proof.
  destruct (Pad_grows_to_size sample_ints (-7) 0) as [(a' & Hrun & _ & _ & _ & _ & Hlen) _].
  - by vm_compute.
  - split; by vm_compute.
  - exists a'. split; [exact Hrun|]. apply Hlen. by vm_compute.
Defined.

Lemma Rands_zero_faults_witness :
  IntArray.Rands sample_ints 0 [2; 0; 1] = Panic IndexOutOfRange ∧
  SortedStringArray.Rands sample_sorted 0 [1; 0] = Panic IndexOutOfRange.
Proof.
  apply Rands_zero_faults.
  - done.
  - unfold is_Perm. simpl.
    change (seqZ 0 (len [1; 2; 3])) with [0; 1; 2].
    etrans; [apply perm_swap|]. apply perm_skip, perm_swap.
  - done.
  - unfold is_Perm. simpl.
    change (seqZ 0 (len ["b"; "d"]%string)) with [0; 1].
    apply perm_swap.
Defined.
End samples.

(** * Further operations *)

(** ** Removing and popping *)

Section removal_facts.
Context {A : Type} `{!ZeroValue A}.
Implicit Types (arr : list A).

Lemma Remove_in_range arr (index : Z) :
  len arr ≤ max_int → 0 ≤ index < len arr →
  ∃ x, arr !! Z.to_nat index = Some x ∧
       garray.Remove arr index = Ret (x, delete (Z.to_nat index) arr).
Proof.
  intros Hsmall Hi.
  destruct (index_in_range arr index Hi) as (x & Hx & Hread).
  exists x. split; [done|]. unfold garray.Remove.
  rewrite delete_take_drop.
  destruct (Z.eqb_spec index 0) as [->|Hnz].
  - rewrite Hread. simpl. rewrite slice_from_in_range by lia. done.
  - rewrite sub_id by (unfold min_int, max_int in *; lia).
    destruct (Z.eqb_spec index (len arr - 1)) as [Hlast|Hmid].
    + rewrite Hread. simpl. unfold slice_to.
      rewrite slice_in_range by lia. simpl.
      rewrite Z.sub_0_r, drop_0.
      rewrite (drop_ge arr (S (Z.to_nat index))) by (unfold len in *; lia).
      by rewrite app_nil_r.
    + rewrite Hread. simpl. unfold slice_to.
      rewrite slice_in_range by lia. simpl.
      rewrite add_id by (unfold min_int, max_int in *; lia).
      rewrite slice_from_in_range by lia. simpl.
      rewrite Z.sub_0_r, drop_0.
      by replace (Z.to_nat (index + 1)) with (S (Z.to_nat index)) by lia.
Qed.

Lemma index_panics arr (index : Z) :
  index < 0 ∨ len arr ≤ index → Go.index arr index = Panic IndexOutOfRange.
Proof.
  intros Hi. unfold Go.index. destruct (Z.ltb_spec index 0); [done|].
  rewrite lookup_ge_None_2; [done|]. unfold len in Hi. lia.
Qed.

Lemma Remove_out_of_range arr (index : Z) :
  index < 0 ∨ len arr ≤ index →
  garray.Remove arr index = Panic IndexOutOfRange.
Proof.
  intros Hi. unfold garray.Remove.
  destruct (Z.eqb_spec index 0) as [->|_].
  { by rewrite index_panics. }
  destruct (index =? sub (len arr) 1); by rewrite index_panics.
Qed.

Lemma PopLeft_cons (x : A) arr :
  garray.PopLeft (x :: arr) = Ret (x, arr).
Proof.
  unfold garray.PopLeft. simpl.
  rewrite slice_from_in_range by (unfold len; simpl; lia). done.
Qed.

Lemma PopRight_snoc arr (x : A) :
  len arr < max_int → garray.PopRight (arr ++ [x]) = Ret (x, arr).
Proof.
  intros Hsmall. pose proof (len_nonneg arr) as Hn.
  unfold garray.PopRight. rewrite len_app.
  replace (len [x]) with 1 by done.
  rewrite sub_id by (unfold min_int, max_int in *; lia).
  replace (len arr + 1 - 1) with (len arr) by lia.
  rewrite (index_Ret _ _ x); [|done|].
  - simpl. unfold slice_to.
    rewrite slice_in_range by (rewrite ?len_app; unfold len; simpl; lia).
    simpl. rewrite Z.sub_0_r, drop_0. unfold len. rewrite Nat2Z.id.
    by rewrite take_app_length.
  - unfold len. rewrite Nat2Z.id. by rewrite list_lookup_middle.
Qed.

Lemma Pop_empty :
  garray.PopLeft (A:=A) [] = Panic IndexOutOfRange ∧
  garray.PopRight (A:=A) [] = Panic IndexOutOfRange.
Proof. done. Qed.

Lemma PopLefts_split arr (size : Z) :
  0 ≤ size →
  garray.PopLefts arr size
  = Ret (take (Z.to_nat size) arr, drop (Z.to_nat size) arr).
Proof.
  intros Hsize. pose proof (len_nonneg arr) as Hn. unfold garray.PopLefts.
  destruct (Z.ltb_spec (len arr) size) as [Hbig|Hfit].
  - rewrite slice_in_range by lia. simpl.
    rewrite slice_from_in_range by lia. simpl.
    rewrite Z.sub_0_r, drop_0.
    rewrite !take_ge, !drop_ge by (unfold len in *; lia). done.
  - rewrite slice_in_range by lia. simpl.
    rewrite slice_from_in_range by lia. simpl.
    by rewrite Z.sub_0_r, drop_0.
Qed.

Lemma PopLefts_negative arr (size : Z) :
  size < 0 → garray.PopLefts arr size = Panic SliceBoundsOutOfRange.
Proof.
  intros Hsize. pose proof (len_nonneg arr) as Hn. unfold garray.PopLefts.
  destruct (Z.ltb_spec (len arr) size) as [|_]; [lia|].
  by rewrite slice_out_of_range by lia.
Qed.

Lemma PopRights_split arr (size : Z) :
  len arr ≤ max_int → 0 ≤ size ≤ max_int →
  garray.PopRights arr size
  = Ret (drop (Z.to_nat (len arr - size)) arr,
         take (Z.to_nat (len arr - size)) arr).
Proof.
  intros Hsmall Hsize. pose proof (len_nonneg arr) as Hn.
  unfold garray.PopRights.
  rewrite sub_id by (unfold min_int, max_int in *; lia).
  destruct (Z.ltb_spec (len arr - size) 0) as [Hbig|Hfit].
  - rewrite slice_from_in_range by lia. simpl. unfold slice_to.
    rewrite slice_in_range by lia. simpl.
    by replace (Z.to_nat (len arr - size)) with 0%nat by lia.
  - rewrite slice_from_in_range by lia. simpl. unfold slice_to.
    rewrite slice_in_range by lia. simpl.
    by rewrite Z.sub_0_r, drop_0.
Qed.

Lemma PopRights_negative arr (size : Z) :
  size < 0 → len arr - size ≤ max_int →
  garray.PopRights arr size = Panic SliceBoundsOutOfRange.
Proof.
  intros Hsize Hfit. pose proof (len_nonneg arr) as Hn.
  unfold garray.PopRights.
  rewrite sub_id by (unfold min_int, max_int in *; lia).
  destruct (Z.ltb_spec (len arr - size) 0) as [|_]; [lia|].
  unfold slice_from. by rewrite slice_out_of_range by lia.
Qed.
End removal_facts.

(** ** [IntArray]: indexed access, insertion, removal, push and pop *)

Section int_array_access.
Import IntArray.

Lemma delete_middle_at {A} (l1 l2 : list A) (x : A) (n : nat) :
  n = length l1 → delete n (l1 ++ x :: l2) = l1 ++ l2.
Proof. intros ->. apply delete_middle. Qed.

Lemma with_array_twice (a : t) (arr : list Z) :
  with_array (with_array a arr) (array a) = a.
Proof. by destruct a. Qed.

(** X1.  [Remove(index)] with [0 <= index < length] returns the element
    at [index] and leaves the array without that position, whichever
    of its three branches runs; with any other index, an empty
    container included, it panics with an index out of range. *)
Theorem Remove_deletes (a : t) (index : Z) :
  len (array a) ≤ max_int →
  (0 ≤ index < len (array a) →
   ∃ x, array a !! Z.to_nat index = Some x ∧
        Remove a index
        = Ret (x, with_array a (delete (Z.to_nat index) (array a)))) ∧
  (index < 0 ∨ len (array a) ≤ index →
   Remove a index = Panic IndexOutOfRange).
Proof.
  intros Hsmall. split.
  - intros Hi. destruct (Remove_in_range (array a) index Hsmall Hi)
      as (x & Hx & Hrun).
    exists x. split; [done|]. unfold Remove. by rewrite Hrun.
  - intros Hi. unfold Remove. by rewrite Remove_out_of_range.
Qed.

(** X2.  [InsertBefore(index, value)] with [0 <= index <= length] puts
    the value at [index], the elements from there on moving up by one:
    [Get(index)] then reads the value and [Remove(index)] gives the
    value and the container back.  With any other index it panics. *)
Theorem InsertBefore_then_Remove (a : t) (index value : Z) :
  len (array a) < max_int →
  (0 ≤ index ≤ len (array a) →
   ∃ a', InsertBefore a index value = Ret a' ∧
     array a' = take (Z.to_nat index) (array a)
                  ++ value :: drop (Z.to_nat index) (array a) ∧
     Get a' index = Ret value ∧
     Remove a' index = Ret (value, a)) ∧
  (index < 0 ∨ len (array a) < index →
   InsertBefore a index value = Panic SliceBoundsOutOfRange).
Proof.
  intros Hsmall. pose proof (len_nonneg (array a)) as Hn. split.
  - intros Hi. unfold InsertBefore.
    rewrite slice_from_in_range by lia. simpl.
    rewrite slice_in_range by lia. simpl.
    rewrite Z.sub_0_r, drop_0, <- app_assoc. simpl.
    eexists. split; [done|]. simpl. split; [done|].
    set (arr' := take (Z.to_nat index) (array a)
                   ++ value :: drop (Z.to_nat index) (array a)).
    assert (length (take (Z.to_nat index) (array a)) = Z.to_nat index) as Htake.
    { rewrite length_take. unfold len in *. lia. }
    assert (arr' !! Z.to_nat index = Some value) as Hlook.
    { subst arr'. by apply list_lookup_middle. }
    assert (len arr' = len (array a) + 1) as Hlen.
    { subst arr'. rewrite len_app. unfold len in *. simpl.
      rewrite Htake, length_drop. lia. }
    split.
    + unfold Get, garray.Get. simpl. apply index_Ret; [lia|done].
    + unfold Remove. simpl.
      destruct (Remove_in_range arr' index) as (x & Hx & ->); [lia..|].
      simpl. rewrite Hlook in Hx. injection Hx as <-.
      do 2 f_equal.
      assert (delete (Z.to_nat index) arr' = array a) as ->.
      { subst arr'. rewrite delete_middle_at by done. apply take_drop. }
      by destruct a.
  - intros Hi. unfold InsertBefore, slice_from.
    by rewrite (slice_out_of_range (array a) index (len (array a))) by lia.
Qed.

(** X3.  [InsertAfter(index, value)] is [InsertBefore(index+1, value)]:
    it accepts [-1 <= index < length], so [InsertAfter(-1, value)] puts
    the value first and [InsertAfter(length-1, value)] appends it, and
    it panics for every other index. *)
Theorem InsertAfter_is_InsertBefore_next (a : t) (index value : Z) :
  len (array a) < max_int → min_int ≤ index ≤ max_int →
  (-1 ≤ index < len (array a) →
   InsertAfter a index value = InsertBefore a (index + 1) value) ∧
  InsertAfter a (-1) value = Ret (PushLeft a [value]) ∧
  InsertAfter a (len (array a) - 1) value = Ret (PushRight a [value]) ∧
  (index < -1 ∨ len (array a) ≤ index →
   InsertAfter a index value = Panic SliceBoundsOutOfRange).
Proof.
  intros Hsmall Hint. pose proof (len_nonneg (array a)) as Hn.
  split; [|split; [|split]].
  - intros Hi. unfold InsertAfter, InsertBefore.
    by rewrite add_id by (unfold min_int, max_int in *; lia).
  - unfold InsertAfter, PushLeft.
    rewrite add_id by (unfold min_int, max_int in *; lia). simpl.
    rewrite slice_from_in_range by lia. simpl.
    rewrite slice_in_range by lia. simpl. by rewrite drop_0.
  - unfold InsertAfter, PushRight.
    rewrite add_id by (unfold min_int, max_int in *; lia).
    replace (len (array a) - 1 + 1) with (len (array a)) by lia.
    rewrite slice_from_in_range by lia. simpl.
    rewrite slice_in_range by lia. simpl.
    rewrite Z.sub_0_r, drop_0.
    rewrite take_ge, drop_ge by (unfold len; lia).
    by rewrite app_nil_r.
  - intros Hi. unfold InsertAfter, slice_from.
    destruct (decide (index = max_int)) as [->|Hne].
    + rewrite (slice_out_of_range (array a) (add max_int 1) (len (array a)));
        [done|]. left. by vm_compute.
    + rewrite add_id by (unfold min_int, max_int in *; lia).
      by rewrite (slice_out_of_range (array a) (index + 1) (len (array a)))
        by lia.
Qed.

(** X4.  [Set(index, value)] with [0 <= index < length] changes that
    position only: [Get(index)] then reads the value, every other
    [Get] reads what it read before, and the length is the same.  With
    any other index both [Set] and [Get] panic. *)
Theorem Set_then_Get (a : t) (index value : Z) :
  (0 ≤ index < len (array a) →
   ∃ a', Set_ a index value = Ret a' ∧
     Get a' index = Ret value ∧
     (∀ j, j ≠ index → Get a' j = Get a j) ∧
     Len a' = Len a) ∧
  (index < 0 ∨ len (array a) ≤ index →
   Set_ a index value = Panic IndexOutOfRange ∧
   Get a index = Panic IndexOutOfRange).
Proof.
  split.
  - intros Hi. unfold Set_. rewrite store_in_range by done. simpl.
    eexists. split; [done|]. unfold Get, garray.Get, Len. simpl.
    split; [|split].
    + apply index_Ret; [lia|]. apply list_lookup_insert_eq.
      unfold len in *. lia.
    + intros j Hj. unfold Go.index. destruct (Z.ltb_spec j 0); [done|].
      rewrite list_lookup_insert_ne by lia. done.
    + unfold len. by rewrite length_insert.
  - intros Hi. split.
    + unfold Set_, store.
      destruct (Z.ltb_spec index 0), (Z.leb_spec (len (array a)) index);
        simpl; try done; lia.
    + unfold Get, garray.Get. by apply index_panics.
Qed.

(** X5.  Pushing then popping at the same end gives back the last
    value pushed there and the container with the other values pushed:
    [PopRight] after [PushRight(vs..., v)], [PopLeft] after
    [PushLeft(v, vs...)].  [Append] is [PushRight].  On an empty
    container both pops panic. *)
Theorem Push_then_Pop (a : t) (v : Z) (vs : list Z) :
  len (array a) + len vs < max_int →
  PopRight (PushRight a (vs ++ [v])) = Ret (v, PushRight a vs) ∧
  PopLeft (PushLeft a (v :: vs)) = Ret (v, PushLeft a vs) ∧
  Append a vs = PushRight a vs ∧
  (array a = [] →
   PopLeft a = Panic IndexOutOfRange ∧ PopRight a = Panic IndexOutOfRange).
Proof.
  intros Hsmall. split; [|split; [|split]].
  - unfold PopRight, PushRight. simpl. rewrite app_assoc.
    rewrite PopRight_snoc by (rewrite len_app; lia). done.
  - unfold PopLeft, PushLeft. simpl. by rewrite PopLeft_cons.
  - done.
  - intros Hnil. unfold PopLeft, PopRight. rewrite Hnil. done.
Qed.

(** X6.  [PopLefts(size)] and [PopRights(size)] with [size >= 0] cut
    the array in two: the popped part has [min(size, length)]
    elements, and pushing it back at the same end restores the
    container.  With a negative [size] both panic on a slice bound. *)
Theorem PopLefts_PopRights_split (a : t) (size : Z) :
  len (array a) ≤ max_int → min_int ≤ size ≤ max_int →
  (0 ≤ size →
   ∃ l r a1 a2,
     PopLefts a size = Ret (l, a1) ∧ PushLeft a1 l = a ∧
     PopRights a size = Ret (r, a2) ∧ PushRight a2 r = a ∧
     len l = Z.min size (len (array a)) ∧
     len r = Z.min size (len (array a))) ∧
  (size < 0 → len (array a) - size ≤ max_int →
   PopLefts a size = Panic SliceBoundsOutOfRange ∧
   PopRights a size = Panic SliceBoundsOutOfRange).
Proof.
  intros Hsmall Hint. pose proof (len_nonneg (array a)) as Hn. split.
  - intros Hsize. unfold PopLefts, PopRights.
    rewrite PopLefts_split by done.
    rewrite PopRights_split by lia. simpl.
    do 4 eexists. split; [done|]. split; [|split; [done|split; [|split]]].
    + unfold PushLeft. simpl. rewrite take_drop. by destruct a.
    + unfold PushRight. simpl. rewrite take_drop. by destruct a.
    + unfold len. rewrite length_take. lia.
    + unfold len. rewrite length_drop. lia.
  - intros Hsize Hfit. unfold PopLefts, PopRights.
    by rewrite PopLefts_negative, PopRights_negative.
Qed.
End int_array_access.

(** ** [IntArray]: [Replace], [Sum], [Search], [CountValues] *)

Section int_array_scans.
Import IntArray.



Lemma wrap_add_l (x y : Z) : wrap (wrap x + y) = wrap (x + y).
Proof.
  unfold wrap. f_equal.
  replace ((x + 2 ^ 63) `mod` 2 ^ 64 - 2 ^ 63 + y + 2 ^ 63)
    with ((x + 2 ^ 63) `mod` 2 ^ 64 + y) by lia.
  rewrite Zplus_mod_idemp_l. f_equal. lia.
Qed.

Lemma Sum_loop (l : list Z) : ∀ acc,
  fold_left (fun sum v => add sum v) l (wrap acc) = wrap (acc + Zsum l).
Proof.
  induction l as [|v l IH]; intros acc; simpl.
  - by rewrite Z.add_0_r.
  - unfold add at 2. rewrite wrap_add_l, IH. f_equal. lia.
Qed.

(** X8.  [Sum()] is the sum of the elements modulo 2^64, brought into
    the range of [int]: when the true sum is an [int], [Sum] returns
    it, whatever overflow the partial sums went through. *)
Theorem Sum_wraps (a : t) :
  Sum a = wrap (Zsum (array a)) ∧
  (min_int ≤ Zsum (array a) ≤ max_int → Sum a = Zsum (array a)) ∧
  (∀ vs, Sum (PushRight a vs) = add (Sum a) (Sum (with_array a vs))).
Proof.
  assert (∀ b, Sum b = wrap (Zsum (array b))) as Hsum.
  { intros b. unfold Sum. pose proof (Sum_loop (array b) 0) as Hloop.
    change (wrap 0) with 0 in Hloop. by rewrite Z.add_0_l in Hloop. }
  split; [done|]. split.
  - intros Hfit. rewrite Hsum. by apply wrap_id.
  - intros vs. rewrite !Hsum. simpl. unfold add.
    rewrite wrap_add_l, Z.add_comm, wrap_add_l. f_equal.
    unfold Zsum. rewrite foldr_app.
    generalize (foldr Z.add 0 vs). intros z.
    induction (array a) as [|x l IH]; simpl; lia.
Qed.

Lemma Search_loop_first (value : Z) (arr : list Z) : ∀ (index : Z),
  0 ≤ index → index + len arr ≤ max_int →
  ((value ∉ arr) ∧ Search_loop value index arr (-1) = -1) ∨
  (∃ k : nat, arr !! k = Some value ∧
     (∀ j, (j < k)%nat → arr !! j ≠ Some value) ∧
     Search_loop value index arr (-1) = index + Z.of_nat k).
Proof.
  induction arr as [|v arr IH]; intros index Hindex Hfit; simpl.
  { left. split; [apply not_elem_of_nil|done]. }
  assert (len (v :: arr) = 1 + len arr) as Hlen by (unfold len; simpl; lia).
  rewrite Hlen in Hfit. pose proof (len_nonneg arr).
  destruct (Z.eqb_spec v value) as [->|Hne].
  { right. exists 0%nat. split; [done|]. split; [lia|]. lia. }
  rewrite add_id by (unfold min_int, max_int in *; lia).
  destruct (IH (index + 1)) as [[Hnotin ->]|(k & Hk & Hfirst & ->)]; [lia..| |].
  - left. split; [|done]. rewrite not_elem_of_cons. done.
  - right. exists (S k). split; [done|]. split; [|lia].
    intros [|j] Hj; simpl; [congruence|]. apply Hfirst. lia.
Qed.

(** X9.  [Search(value)] returns the first index that holds the value,
    and -1 exactly when the value does not occur; [Contains(value)]
    says whether it occurs. *)
Theorem Search_first_index (a : t) (value : Z) :
  len (array a) ≤ max_int →
  (value ∈ array a →
   ∃ k : nat, Search a value = Z.of_nat k ∧
     array a !! k = Some value ∧
     ∀ j, (j < k)%nat → array a !! j ≠ Some value) ∧
  (value ∉ array a → Search a value = -1) ∧
  (Contains a value = true ↔ value ∈ array a).
Proof.
  intros Hsmall.
  assert (((value ∉ array a) ∧ Search a value = -1) ∨
          (∃ k : nat, array a !! k = Some value ∧
             (∀ j, (j < k)%nat → array a !! j ≠ Some value) ∧
             Search a value = Z.of_nat k)) as Hcases.
  { unfold Search. destruct (Z.eqb_spec (len (array a)) 0) as [Hz|_].
    - left. split; [|done]. destruct (array a); [apply not_elem_of_nil|done].
    - destruct (Search_loop_first value (array a) 0) as [?|(k & ? & ? & ->)];
        [lia..|by left|].
      right. exists k. by rewrite Z.add_0_l. }
  split; [|split].
  - intros Hin. destruct Hcases as [[Hnotin _]|(k & Hk & Hfirst & ->)]; [done|].
    by exists k.
  - intros Hnotin. destruct Hcases as [[_ ->]|(k & Hk & _)]; [done|].
    destruct Hnotin. by eapply list_elem_of_lookup_2.
  - unfold Contains.
    destruct Hcases as [[Hnotin ->]|(k & Hk & _ & ->)]; simpl.
    + split; [done|]. intros Hin. by destruct Hnotin.
    + destruct (Z.eqb_spec (Z.of_nat k) (-1)); [lia|]. simpl.
      split; [|done]. intros _. by eapply list_elem_of_lookup_2.
Qed.

Lemma occurrences_cons (v x : Z) (l : list Z) :
  occurrences v (x :: l)
  = (if decide (x = v) then 1 else 0) + occurrences v l.
Proof.
  unfold occurrences. rewrite filter_cons.
  destruct (decide (x = v)); simpl; lia.
Qed.

Lemma occurrences_bounds (v : Z) (l : list Z) :
  0 ≤ occurrences v l ≤ len l.
Proof.
  unfold occurrences, len. pose proof (length_filter (λ x, x = v) l). lia.
Qed.

Lemma occurrences_zero (v : Z) (l : list Z) :
  occurrences v l = 0 ↔ v ∉ l.
Proof.
  induction l as [|x l IH].
  - split; [intros _; apply not_elem_of_nil|done].
  - rewrite occurrences_cons, not_elem_of_cons.
    pose proof (occurrences_bounds v l).
    destruct (decide (x = v)) as [->|Hne].
    + split; [lia|]. intros [? _]. done.
    + rewrite Z.add_0_l, IH. split; [by split|by intros [_ ?]].
Qed.

Lemma CountValues_loop (l : list Z) : ∀ (m : gmap Z Z) (v : Z),
  (∀ x, 0 ≤ default 0 (m !! x)) →
  (∀ x, default 0 (m !! x) + occurrences x l ≤ max_int) →
  fold_left (fun m v => <[v := add (default 0 (m !! v)) 1]> m) l m !! v
  = if decide (occurrences v l = 0) then m !! v
    else Some (default 0 (m !! v) + occurrences v l).
Proof.
  induction l as [|x l IH]; intros m v Hpos Hfit; simpl.
  { done. }
  assert (add (default 0 (m !! x)) 1 = default 0 (m !! x) + 1) as Hadd.
  { specialize (Hfit x). specialize (Hpos x). rewrite occurrences_cons in Hfit.
    rewrite decide_True in Hfit by done.
    pose proof (occurrences_bounds x l).
    apply add_id. unfold min_int, max_int in *. lia. }
  rewrite Hadd.
  rewrite IH.
  - rewrite occurrences_cons. pose proof (occurrences_bounds v l).
    destruct (decide (x = v)) as [->|Hne].
    + rewrite lookup_insert_eq. simpl.
      rewrite (decide_False (P := 1 + occurrences v l = 0)) by lia.
      destruct (decide (occurrences v l = 0)) as [->|_]; f_equal; lia.
    + rewrite lookup_insert_ne by done. by rewrite Z.add_0_l.
  - intros y. destruct (decide (x = y)) as [->|Hne].
    + rewrite lookup_insert_eq. simpl. specialize (Hpos y). lia.
    + rewrite lookup_insert_ne by done. apply Hpos.
  - intros y. specialize (Hfit y). rewrite occurrences_cons in Hfit.
    destruct (decide (x = y)) as [->|Hne].
    + rewrite lookup_insert_eq. simpl. lia.
    + rewrite lookup_insert_ne by done. lia.
Qed.

(** X10.  [CountValues()] maps every value of the array to the number
    of times it occurs, and has no other key. *)
Theorem CountValues_counts (a : t) (v : Z) :
  len (array a) ≤ max_int →
  (v ∈ array a →
   CountValues a !! v = Some (occurrences v (array a)) ∧
   1 ≤ occurrences v (array a)) ∧
  (v ∉ array a → CountValues a !! v = None).
Proof.
  intros Hsmall. unfold CountValues.
  rewrite CountValues_loop.
  - pose proof (occurrences_bounds v (array a)).
    pose proof (occurrences_zero v (array a)) as Hz.
    rewrite lookup_empty. simpl.
    destruct (decide (occurrences v (array a) = 0)) as [E|E]; split.
    + intros Hin. apply Hz in E. done.
    + done.
    + intros _. split; [done|lia].
    + intros Hnotin. apply Hz in Hnotin. done.
  - intros x. by rewrite lookup_empty.
  - intros x. rewrite lookup_empty. simpl.
    pose proof (occurrences_bounds x (array a)). lia.
Qed.
End int_array_scans.

(** ** [IntArray]: [Reverse], [Shuffle], [Unique] *)

Section int_array_rearrange.
Import IntArray.

Lemma Reverse_loop_reverses (l : list Z) :
  len l ≤ max_int →
  ∀ (fuel k : nat) (cur : list Z),
    length cur = length l →
    (length l ≤ 2 * k + fuel)%nat →
    (2 * k ≤ length l + 1)%nat →
    (∀ p, (p < length l)%nat →
          cur !! p = if decide (p < k ∨ length l - k ≤ p)%nat
                     then l !! (length l - 1 - p)%nat else l !! p) →
    Reverse_loop fuel (Z.of_nat k) (len l - 1 - Z.of_nat k) cur
    = Ret (reverse l).
Proof.
  intros Hsmall. unfold len in *.
  induction fuel as [|fuel IH]; intros k cur Hlen Hfuel Hk Hinv; simpl;
    destruct (Z.ltb_spec (Z.of_nat k) (Z.of_nat (length l) - 1 - Z.of_nat k))
      as [Hlt|Hge]; try lia.
  1,3: (f_equal; apply list_eq; intros p;
        destruct (decide (p < length l)%nat) as [Hp|Hp];
        [ rewrite (Hinv p Hp), reverse_lookup by done;
          destruct (decide (p < k ∨ length l - k ≤ p)%nat) as [_|Hmid];
          [ f_equal; lia | f_equal; lia ]
        | rewrite !lookup_ge_None_2; [done|rewrite ?length_reverse; lia..] ]).
  set (q := (length l - 1 - k)%nat).
  assert (Z.of_nat (length l) - 1 - Z.of_nat k = Z.of_nat q) as Hq by lia.
  rewrite Hq.
  destruct (lookup_lt_is_Some_2 l q) as [x Hx]; [lia|].
  destruct (lookup_lt_is_Some_2 l k) as [y Hy]; [lia|].
  assert (cur !! q = Some x) as Hcq.
  { rewrite Hinv by lia. rewrite decide_False by lia. done. }
  assert (cur !! k = Some y) as Hck.
  { rewrite Hinv by lia. rewrite decide_False by lia. done. }
  rewrite (index_Ret cur (Z.of_nat q) x) by (rewrite ?Nat2Z.id; done || lia).
  simpl.
  rewrite (index_Ret cur (Z.of_nat k) y) by (rewrite ?Nat2Z.id; done || lia).
  simpl.
  rewrite store_in_range by (unfold len; lia). simpl.
  rewrite store_in_range by (unfold len; rewrite length_insert; lia). simpl.
  rewrite add_id, sub_id by (unfold min_int, max_int in *; lia).
  rewrite !Nat2Z.id.
  replace (Z.of_nat k + 1) with (Z.of_nat (S k)) by lia.
  replace (Z.of_nat q - 1) with (Z.of_nat (length l) - 1 - Z.of_nat (S k)) by lia.
  apply IH; [by rewrite !length_insert|lia|lia|].
  intros p Hp.
  destruct (decide (p = q)) as [->|Hpq].
  { rewrite list_lookup_insert_eq by (rewrite length_insert; lia).
    rewrite decide_True by lia. rewrite <- Hy. f_equal. lia. }
  rewrite list_lookup_insert_ne by done.
  destruct (decide (p = k)) as [->|Hpk].
  { rewrite list_lookup_insert_eq by lia.
    rewrite decide_True by lia. by rewrite <- Hx. }
  rewrite list_lookup_insert_ne by done.
  rewrite Hinv by done.
  destruct (decide (p < k ∨ length l - k ≤ p)%nat);
    [rewrite decide_True by lia|rewrite decide_False by lia]; done.
Qed.

(** X11.  [Reverse()] puts the elements in the opposite order and
    never panics, the empty container included; doing it twice gives
    the container back. *)
Theorem Reverse_reverses (a : t) :
  len (array a) ≤ max_int →
  Reverse a = Ret (with_array a (reverse (array a))) ∧
  (a' ← Reverse a; Reverse a') = Ret a.
Proof.
  intros Hsmall.
  assert (∀ b, len (array b) ≤ max_int →
               Reverse b = Ret (with_array b (reverse (array b)))) as Hrev.
  { intros b Hb. unfold Reverse.
    pose proof (Reverse_loop_reverses (array b) Hb (length (array b)) 0
                  (array b) eq_refl ltac:(lia) ltac:(lia)) as Hloop.
    change (Z.of_nat 0) with 0 in Hloop. rewrite Z.sub_0_r in Hloop.
    rewrite sub_id by (unfold len, min_int, max_int in *; lia).
    rewrite Hloop; [done|].
    intros p Hp. by rewrite decide_False by lia. }
  split; [by apply Hrev|].
  rewrite Hrev by done. simpl.
  rewrite Hrev by (unfold len in *; simpl; rewrite length_reverse; done).
  simpl. rewrite reverse_involutive. by destruct a.
Qed.

Lemma Shuffle_loop_permutes (perm : list Z) : ∀ (i : Z) (arr : list Z),
  0 ≤ i → i + len perm ≤ len arr → len arr ≤ max_int →
  Forall (λ v, 0 ≤ v < len arr) perm →
  ∃ arr', Shuffle_loop i perm arr = Ret arr' ∧ arr' ≡ₚ arr.
Proof.
  induction perm as [|v perm IH]; intros i arr Hi Hfit Hsmall Hperm; simpl.
  { by exists arr. }
  assert (len (v :: perm) = 1 + len perm) as Hlen by (unfold len; simpl; lia).
  rewrite Hlen in Hfit. pose proof (len_nonneg perm).
  apply Forall_cons in Hperm as [Hv Hperm].
  destruct (index_in_range arr v Hv) as (x & Hx & ->). simpl.
  destruct (index_in_range arr i ltac:(lia)) as (y & Hy & ->). simpl.
  rewrite store_in_range by lia. simpl.
  rewrite store_in_range by (unfold len in *; rewrite length_insert; lia).
  simpl.
  rewrite add_id by (unfold min_int, max_int in *; lia).
  assert (<[Z.to_nat v:=y]> (<[Z.to_nat i:=x]> arr) ≡ₚ arr) as Hswap.
  { by apply Permutation_insert_swap. }
  destruct (IH (i + 1) (<[Z.to_nat v:=y]> (<[Z.to_nat i:=x]> arr)))
    as (arr' & -> & Hp).
  - lia.
  - unfold len in *. rewrite !length_insert. lia.
  - unfold len in *. rewrite !length_insert. lia.
  - unfold len in *. by rewrite !length_insert.
  - exists arr'. split; [done|]. by rewrite Hp.
Qed.

(** X12.  With a drawn permutation of the positions, [Shuffle()]
    never panics and leaves a rearrangement of the same elements. *)
Theorem Shuffle_permutes (a : t) (perm : list Z) :
  len (array a) ≤ max_int → is_Perm perm (len (array a)) →
  ∃ a', Shuffle a perm = Ret a' ∧ array a' ≡ₚ array a ∧
        mu_safe a' = mu_safe a.
Proof.
  intros Hsmall Hperm. unfold Shuffle.
  destruct (Shuffle_loop_permutes perm 0 (array a)) as (arr' & -> & Hp).
  - lia.
  - unfold len. rewrite (is_Perm_length perm (array a)) by done. lia.
  - done.
  - apply Forall_forall. intros v Hv. unfold is_Perm in Hperm.
    rewrite Hperm in Hv. apply elem_of_seqZ in Hv. lia.
  - simpl. by eexists.
Qed.

Lemma elem_of_delete_duplicate (arr : list Z) (i j : nat) (v x : Z) :
  (i < j)%nat → arr !! i = Some v → arr !! j = Some v →
  x ∈ arr → x ∈ delete j arr.
Proof.
  intros Hij Hi Hj Hx. apply list_elem_of_lookup in Hx as [p Hp].
  destruct (decide (p = j)) as [->|Hne].
  - assert (x = v) as -> by congruence.
    apply (list_elem_of_lookup_2 _ i). by rewrite list_lookup_delete_lt.
  - destruct (decide (p < j)%nat).
    + apply (list_elem_of_lookup_2 _ p). by rewrite list_lookup_delete_lt.
    + apply (list_elem_of_lookup_2 _ (p - 1)).
      rewrite list_lookup_delete_ge by lia.
      by replace (S (p - 1)) with p by lia.
Qed.

Lemma Unique_inner_keeps : ∀ (fuel : nat) (i j : Z) (arr : list Z),
  len arr ≤ max_int → 0 ≤ i < j → i < len arr →
  len arr - j ≤ Z.of_nat fuel →
  ∃ arr', Unique_inner fuel i j arr = Ret arr' ∧
    arr' `sublist_of` arr ∧
    (∀ x, x ∈ arr → x ∈ arr') ∧
    take (Z.to_nat j) arr' = take (Z.to_nat j) arr.
Proof.
  induction fuel as [|fuel IH]; intros i j arr Hsmall Hij Hi Hfuel; simpl;
    destruct (Z.ltb_spec j (len arr)) as [Hlt|Hge]; try lia;
    try (by exists arr).
  destruct (index_in_range arr i ltac:(lia)) as (x & Hx & ->). simpl.
  destruct (index_in_range arr j ltac:(lia)) as (y & Hy & ->). simpl.
  rewrite add_id by (unfold min_int, max_int in *; lia).
  destruct (Z.eqb_spec x y) as [<-|Hne].
  - rewrite slice_to_take by lia. simpl.
    rewrite slice_from_in_range by lia. simpl.
    replace (Z.to_nat (j + 1)) with (S (Z.to_nat j)) by lia.
    rewrite <- delete_take_drop.
    assert (len (delete (Z.to_nat j) arr) = len arr - 1) as Hlen.
    { unfold len in *. rewrite length_delete by (by eexists). lia. }
    destruct (IH i (j + 1) (delete (Z.to_nat j) arr))
      as (arr' & -> & Hsub & Hmem & Htake); [lia..|].
    exists arr'. split; [done|]. split; [|split].
    + etrans; [exact Hsub|apply sublist_delete].
    + intros z Hz. apply Hmem.
      apply (elem_of_delete_duplicate arr (Z.to_nat i) (Z.to_nat j) x);
        [lia|done..].
    + apply (f_equal (take (Z.to_nat j))) in Htake.
      rewrite !take_take in Htake.
      replace (Z.to_nat j `min` Z.to_nat (j + 1))%nat with (Z.to_nat j)
        in Htake by lia.
      rewrite Htake, delete_take_drop, take_app_le
        by (rewrite length_take; unfold len in *; lia).
      apply take_ge. rewrite length_take. lia.
  - destruct (IH i (j + 1) arr) as (arr' & -> & Hsub & Hmem & Htake); [lia..|].
    exists arr'. split; [done|]. split; [done|]. split; [done|].
    apply (f_equal (take (Z.to_nat j))) in Htake.
    rewrite !take_take in Htake.
    by replace (Z.to_nat j `min` Z.to_nat (j + 1))%nat with (Z.to_nat j)
      in Htake by lia.
Qed.

Lemma Unique_outer_keeps : ∀ (fuel : nat) (i : Z) (arr : list Z),
  len arr ≤ max_int → 0 ≤ i →
  len arr - 1 - i ≤ Z.of_nat fuel →
  ∃ arr', Unique_outer fuel i arr = Ret arr' ∧
    arr' `sublist_of` arr ∧
    (∀ x, x ∈ arr → x ∈ arr') ∧
    take (Z.to_nat (i + 1)) arr' = take (Z.to_nat (i + 1)) arr.
Proof.
  induction fuel as [|fuel IH]; intros i arr Hsmall Hi Hfuel; simpl;
    pose proof (len_nonneg arr) as Hn;
    rewrite sub_id by (unfold min_int, max_int in *; lia);
    destruct (Z.ltb_spec i (len arr - 1)) as [Hlt|Hge]; try lia;
    try (by exists arr).
  rewrite add_id by (unfold min_int, max_int in *; lia).
  destruct (Unique_inner_keeps (length arr) i (i + 1) arr)
    as (arr1 & -> & Hsub1 & Hmem1 & Htake1); [lia..|unfold len; lia|].
  simpl.
  assert (len arr1 ≤ len arr) as Hlen1.
  { unfold len. apply sublist_length in Hsub1. lia. }
  destruct (IH (i + 1) arr1) as (arr' & -> & Hsub & Hmem & Htake); [lia..|].
  exists arr'. split; [done|]. split; [by etrans|]. split; [by auto|].
  apply (f_equal (take (Z.to_nat (i + 1)))) in Htake.
  rewrite !take_take in Htake.
  replace (Z.to_nat (i + 1) `min` Z.to_nat (i + 1 + 1))%nat
    with (Z.to_nat (i + 1)) in Htake by lia.
  by rewrite Htake.
Qed.

(** X13.  [Unique()] never panics; it only removes elements, keeping
    the others in their order, and it never removes the last copy of a
    value: the values that occur are the same before and after, and
    the first element stays first. *)
Theorem Unique_only_removes_copies (a : t) :
  len (array a) ≤ max_int →
  ∃ a', Unique a = Ret a' ∧
    array a' `sublist_of` array a ∧
    (∀ x, x ∈ array a' ↔ x ∈ array a) ∧
    head (array a') = head (array a) ∧
    mu_safe a' = mu_safe a.
Proof.
  intros Hsmall. unfold Unique.
  destruct (Unique_outer_keeps (length (array a)) 0 (array a))
    as (arr' & -> & Hsub & Hmem & Htake); [lia..|unfold len; lia|].
  simpl. eexists. split; [done|]. simpl. split; [done|].
  split; [|split; [|done]].
  - intros x. split; [|by auto]. by apply sublist_subseteq.
  - change (Z.to_nat (0 + 1)) with 1%nat in Htake.
    destruct arr' as [|x1 ?], (array a) as [|x2 ?]; simpl in *; congruence.
Qed.
End int_array_rearrange.

(** ** [SortedStringArray]: [Unique] and [SetUnique] on a non-empty
    container *)

Section sorted_unique.
Import SortedStringArray.

Lemma Unique_loop_collapses (cmp : string → string → Z) :
  ∀ (rest : list string) (fuel : nat) (pre : list string) (x : string),
    len (pre ++ x :: rest) ≤ max_int →
    (length rest ≤ fuel)%nat →
    Unique_loop fuel cmp (len pre) (pre ++ x :: rest)
    = Ret (pre ++ collapse_from cmp x rest).
Proof.
  induction rest as [|y rest IH]; intros fuel pre x Hsmall Hfuel.
  - assert ((len pre =? sub (len (pre ++ [x])) 1) = true) as Hlast.
    { apply Z.eqb_eq. rewrite sub_id.
      - rewrite len_app. unfold len. simpl. lia.
      - pose proof (len_nonneg (pre ++ [x])).
        unfold min_int, max_int in *. lia. }
    destruct fuel; simpl; by rewrite Hlast.
  - destruct fuel as [|fuel]; [simpl in Hfuel; lia|]. simpl in Hfuel.
    pose proof (len_nonneg pre) as Hpre.
    assert (len (pre ++ x :: y :: rest) = len pre + 2 + len rest) as Hlen.
    { rewrite len_app. unfold len. simpl. lia. }
    pose proof (len_nonneg rest) as Hrest.
    simpl.
    rewrite sub_id by (unfold min_int, max_int in *; lia).
    destruct (Z.eqb_spec (len pre) (len (pre ++ x :: y :: rest) - 1));
      [lia|].
    rewrite (index_Ret (pre ++ x :: y :: rest) (len pre) x);
      [|lia|unfold len; rewrite Nat2Z.id; by apply list_lookup_middle].
    simpl.
    rewrite (add_id (len pre) 1) by (unfold min_int, max_int in *; lia).
    rewrite (index_Ret (pre ++ x :: y :: rest) (len pre + 1) y); [|lia|].
    2:{ rewrite (cons_middle x pre (y :: rest)), app_assoc.
        apply list_lookup_middle. rewrite length_app. unfold len. simpl. lia. }
    simpl.
    destruct (Z.eqb_spec (cmp x y) 0) as [Heq|Hne].
    + rewrite slice_to_take by lia. simpl.
      rewrite add_id by (unfold min_int, max_int in *; lia).
      rewrite slice_from_in_range by lia. simpl.
      assert (take (Z.to_nat (len pre + 1)) (pre ++ x :: y :: rest)
              = pre ++ [x]) as ->.
      { rewrite (cons_middle x pre (y :: rest)), app_assoc.
        apply take_app_length'. rewrite length_app. unfold len. simpl. lia. }
      assert (drop (Z.to_nat (len pre + 1 + 1)) (pre ++ x :: y :: rest)
              = rest) as ->.
      { rewrite (cons_middle x pre (y :: rest)), app_assoc.
        rewrite (cons_middle y (pre ++ [x]) rest), app_assoc.
        apply drop_app_length'. rewrite !length_app. unfold len. simpl. lia. }
      rewrite <- app_assoc. simpl.
      apply IH; [|lia].
      rewrite len_app in *. unfold len in *. simpl in *. lia.
    + replace (len pre + 1) with (len (pre ++ [x]))
        by (rewrite len_app; unfold len; simpl; lia).
      rewrite (cons_middle x pre (y :: rest)), app_assoc.
      rewrite IH; [|rewrite <- app_assoc; simpl; done|lia].
      by rewrite <- app_assoc.
Qed.

Section collapse.
Context (cmp : string → string → Z) `{!TotalComparator cmp}.

Lemma collapse_from_head x l : ∃ t, collapse_from cmp x l = x :: t.
Proof.
  revert x. induction l as [|y l IH]; intros x; simpl; [by eexists|].
  destruct (cmp x y =? 0); [apply IH|by eexists].
Qed.

Lemma collapse_from_sublist x l : collapse_from cmp x l `sublist_of` x :: l.
Proof.
  revert x. induction l as [|y l IH]; intros x; simpl; [done|].
  destruct (cmp x y =? 0).
  - etrans; [apply IH|]. by apply sublist_skip, sublist_cons.
  - by apply sublist_skip.
Qed.

Lemma collapse_from_elem x l z : z ∈ x :: l → z ∈ collapse_from cmp x l.
Proof.
  revert x. induction l as [|y l IH]; intros x Hz; simpl; [done|].
  destruct (Z.eqb_spec (cmp x y) 0) as [Heq|Hne].
  - apply cmp_eq in Heq. subst y. apply IH.
    rewrite !elem_of_cons in Hz. rewrite elem_of_cons. tauto.
  - apply elem_of_cons in Hz as [->|Hz]; [by left|].
    right. by apply IH.
Qed.

Lemma collapse_from_strict x l :
  StronglySorted (le_by cmp) (x :: l) →
  StronglySorted (lt_by cmp) (collapse_from cmp x l).
Proof.
  revert x. induction l as [|y l IH]; intros x Hs; simpl.
  { repeat constructor. }
  apply StronglySorted_cons in Hs as [Hall Hs].
  destruct (Z.eqb_spec (cmp x y) 0) as [Heq|Hne].
  - apply cmp_eq in Heq. subst y. by apply IH.
  - apply StronglySorted_cons. split; [|by apply IH].
    apply Forall_forall. intros z Hz.
    apply (sublist_subseteq _ _ (collapse_from_sublist y l)) in Hz.
    assert (cmp x y < 0) as Hxy.
    { apply Forall_cons in Hall as [Hxy _]. unfold le_by in Hxy. lia. }
    unfold lt_by.
    apply elem_of_cons in Hz as [->|Hz]; [done|].
    apply (cmp_lt_le_trans cmp x y z); [done|].
    apply StronglySorted_cons in Hs as [Hy _].
    rewrite Forall_forall in Hy. by apply Hy.
Qed.

Lemma collapse_from_fixed x l :
  StronglySorted (lt_by cmp) (x :: l) → collapse_from cmp x l = x :: l.
Proof.
  revert x. induction l as [|y l IH]; intros x Hs; simpl; [done|].
  apply StronglySorted_cons in Hs as [Hall Hs].
  apply Forall_cons in Hall as [Hxy _]. unfold lt_by in Hxy.
  destruct (Z.eqb_spec (cmp x y) 0); [lia|]. by rewrite IH.
Qed.

Lemma StronglySorted_lt_NoDup l :
  StronglySorted (lt_by cmp) l → NoDup l.
Proof.
  induction 1 as [|x l Hs IH Hall]; constructor; [|done].
  intros Hx. rewrite Forall_forall in Hall. specialize (Hall x Hx).
  unfold lt_by in Hall. rewrite cmp_refl in Hall; [lia|done].
Qed.

Lemma StronglySorted_lt_sorted l :
  StronglySorted (lt_by cmp) l → Sorted (le_by cmp) l.
Proof.
  intros Hs. apply StronglySorted_Sorted.
  induction Hs as [|x l Hs IH Hall]; constructor; [done|].
  eapply Forall_impl; [exact Hall|]. unfold lt_by, le_by. intros; lia.
Qed.
End collapse.

Lemma Unique_collapses (a : t) `{!TotalComparator (comparator a)} :
  sorted a → array a ≠ [] → len (array a) ≤ max_int →
  ∃ a', Unique a = Ret a' ∧
    sorted a' ∧ NoDup (array a') ∧ no_adjacent_equal (array a') ∧
    (∀ x, x ∈ array a' ↔ x ∈ array a) ∧
    array a' `sublist_of` array a ∧
    unique a' = unique a ∧ comparator a' = comparator a ∧
    Unique a' = Ret a'.
Proof.
  intros Hsorted Hne Hsmall. unfold Unique.
  destruct (array a) as [|x rest] eqn:Harr; [done|].
  pose proof (Unique_loop_collapses (comparator a) rest (S (length (x :: rest)))
                [] x Hsmall ltac:(simpl; lia)) as Hrun.
  change (len []) with 0 in Hrun. simpl app in Hrun. rewrite Hrun.
  cbn [mbind outcome_bind].
  eexists. split; [done|]. cbn [array comparator unique with_array].
  assert (StronglySorted (le_by (comparator a)) (x :: rest)) as Hss.
  { apply Sorted_StronglySorted; [apply _|].
    unfold sorted in Hsorted. by rewrite Harr in Hsorted. }
  pose proof (collapse_from_strict _ x rest Hss) as Hstrict.
  split; [by apply StronglySorted_lt_sorted|].
  split; [by eapply StronglySorted_lt_NoDup|].
  split; [by eapply StronglySorted_lt_no_adjacent_equal|].
  split; [|split; [apply collapse_from_sublist|]].
  - intros z. split; [|by apply collapse_from_elem].
    apply sublist_subseteq, collapse_from_sublist.
  - split; [done|]. split; [done|].
    destruct (collapse_from_head (comparator a) x rest) as [t Ht].
    rewrite Ht in *.
    pose proof (Unique_loop_collapses (comparator a) t (S (length (x :: t)))
                  [] x) as Hagain.
    change (len []) with 0 in Hagain. simpl app in Hagain.
    unfold Unique. cbn [array comparator with_array].
    rewrite Hagain; [|..|simpl; lia].
    + simpl. by rewrite (collapse_from_fixed _ x t).
    + pose proof (sublist_length _ _ (collapse_from_sublist (comparator a) x rest))
        as Hlen.
      rewrite Ht in Hlen. unfold len in *. lia.
Qed.

(** X14.  On a non-empty sorted container [Unique()] returns, keeps
    the container sorted and leaves exactly one copy of every value
    that occurred; a second [Unique()] changes nothing. *)
Theorem sorted_Unique_removes_duplicates
    (a : t) `{!TotalComparator (comparator a)} :
  sorted a → array a ≠ [] → len (array a) ≤ max_int →
  ∃ a', Unique a = Ret a' ∧
    sorted a' ∧ NoDup (array a') ∧ no_adjacent_equal (array a') ∧
    (∀ x, x ∈ array a' ↔ x ∈ array a) ∧
    array a' `sublist_of` array a ∧
    unique a' = unique a ∧ comparator a' = comparator a ∧
    Unique a' = Ret a'.
Proof. exact (Unique_collapses a). Qed.

(** X15.  [SetUnique(flag)] removes duplicates only when it turns the
    flag from off to on: on a non-empty sorted container that call
    leaves a sorted array with one copy of every value and the flag
    on; a call that leaves the flag as it is, or turns it off, changes
    nothing but the flag, whatever the array holds. *)
Theorem SetUnique_dedups_on_switch_on (a : t) :
  (TotalComparator (comparator a) →
   sorted a → array a ≠ [] → len (array a) ≤ max_int →
   unique a = false →
   ∃ a', SetUnique a true = Ret a' ∧ unique a' = true ∧
     sorted a' ∧ NoDup (array a') ∧ no_adjacent_equal (array a') ∧
     (∀ x, x ∈ array a' ↔ x ∈ array a)) ∧
  (unique a = true → SetUnique a true = Ret a) ∧
  SetUnique a false = Ret (with_unique a false).
Proof.
  split; [|split].
  - intros Hcmp Hsorted Hne Hsmall Hoff. unfold SetUnique. rewrite Hoff. simpl.
    destruct (Unique_collapses (with_unique a true))
      as (a' & -> & Hs & Hnd & Hnae & Hmem & _ & Hu & _); [done..|].
    exists a'. split; [done|]. split; [done|]. split; [done|].
    split; [done|]. split; [done|]. exact Hmem.
  - intros Hon. unfold SetUnique. rewrite Hon. simpl.
    destruct a; simpl in *; by subst.
  - unfold SetUnique. done.
Qed.
End sorted_unique.

(** ** [SortedStringArray]: what [Add] puts in, removal, construction *)

Section sorted_more.
Import SortedStringArray.






Lemma StronglySorted_sublist {A} (R : relation A) (l1 l2 : list A) :
  l1 `sublist_of` l2 → StronglySorted R l2 → StronglySorted R l1.
Proof.
  induction 1 as [|x l1 l2 Hsub IH|x l1 l2 Hsub IH]; intros Hs; [done|..].
  - apply StronglySorted_cons in Hs as [Hall Hs].
    apply StronglySorted_cons. split; [|by apply IH].
    rewrite Forall_forall in *. intros y Hy. apply Hall.
    by apply (sublist_subseteq _ _ Hsub).
  - apply StronglySorted_cons in Hs as [_ Hs]. by apply IH.
Qed.

Lemma sorted_sublist (a : t) (arr : list string)
    `{!TotalComparator (comparator a)} :
  sorted a → arr `sublist_of` array a →
  sorted (with_array a arr) ∧
  (no_adjacent_equal (array a) → no_adjacent_equal arr).
Proof.
  intros Hsorted Hsub. split.
  - unfold sorted. simpl. apply StronglySorted_Sorted.
    apply (StronglySorted_sublist _ _ _ Hsub).
    apply Sorted_StronglySorted; [apply _|done].
  - intros Hnae.
    apply (StronglySorted_lt_no_adjacent_equal (comparator a)).
    apply (StronglySorted_sublist _ _ _ Hsub).
    by apply Sorted_le_no_adjacent_equal_lt.
Qed.


#[local] Instance strings_le_total : Total strings_le.
Proof.
  intros x y. unfold strings_le.
  destruct (Z_lt_le_dec 0 (strings_Compare x y)) as [H|H]; [|by left].
  right. apply (cmp_pos_neg strings_Compare) in H. lia.
Qed.

#[local] Instance strings_le_trans : Transitive strings_le.
Proof. intros x y z. apply (cmp_trans (cmp := strings_Compare)). Qed.

#[local] Instance strings_le_antisym : AntiSymm (=) strings_le.
Proof.
  intros x y Hxy Hyx. unfold strings_le in *.
  destruct (decide (strings_Compare x y = 0)) as [E|E].
  - by apply strings_Compare_zero in E.
  - assert (strings_Compare x y < 0) as Hlt by lia.
    apply (cmp_antisym (cmp := strings_Compare)) in Hlt. lia.
Qed.

Lemma sort_Strings_sorted (l : list string) :
  Sorted strings_le (sort_Strings l) ∧ sort_Strings l ≡ₚ l ∧
  (Sorted strings_le l → sort_Strings l = l).
Proof.
  unfold sort_Strings. split; [apply Sorted_merge_sort, _|].
  split; [apply merge_sort_Permutation|].
  intros Hs. apply (Sorted_unique strings_le); [|done|].
  - apply Sorted_merge_sort, _.
  - apply merge_sort_Permutation.
Qed.

(** X19.  [NewSortedStringArrayFrom(array)] gives a container that
    holds the given strings in increasing order, under a total
    comparator and with uniqueness off; a slice that is already in
    order is taken as it is.  [SetArray(array)] sorts the new array
    too and keeps the flags, so with uniqueness on, copies in the
    given array stay in the container. *)
Theorem NewSortedStringArrayFrom_sorts (arr : list string)
    (unsafe : list bool) (a : t) :
  (sorted (NewSortedStringArrayFrom arr unsafe) ∧
   array (NewSortedStringArrayFrom arr unsafe) ≡ₚ arr ∧
   unique (NewSortedStringArrayFrom arr unsafe) = false ∧
   TotalComparator (comparator (NewSortedStringArrayFrom arr unsafe)) ∧
   (Sorted strings_le arr →
    array (NewSortedStringArrayFrom arr unsafe) = arr) ∧
   NewSortedStringArrayFromCopy arr unsafe
   = NewSortedStringArrayFrom arr unsafe) ∧
  (Sorted strings_le (array (SetArray a arr)) ∧
   array (SetArray a arr) ≡ₚ arr ∧
   unique (SetArray a arr) = unique a ∧
   comparator (SetArray a arr) = comparator a).
Proof.
  destruct (sort_Strings_sorted arr) as (Hs & Hp & Hfix).
  split.
  - split; [exact Hs|]. split; [exact Hp|]. split; [done|].
    split; [apply strings_Compare_total|]. split; [exact Hfix|].
    unfold NewSortedStringArrayFromCopy.
    by rewrite copy_fresh, take_ge by done.
  - split; [exact Hs|]. split; [exact Hp|]. done.
Qed.

(** X20.  On a sorted container [Sort()] changes nothing.  [Clone()]
    gives a container with the same mode, comparator and array but
    with uniqueness off, whatever the flag of the original; the clone
    of an [IntArray] is the same container. *)
Theorem Clone_resets_unique (a : t) (ia : IntArray.t) :
  comparator a = strings_Compare → sorted a →
  Sort a = a ∧
  Clone a = with_unique a false ∧
  IntArray.Clone ia = ia.
Proof.
  intros Hcmp Hsorted.
  assert (sort_Strings (array a) = array a) as Hfix.
  { apply sort_Strings_sorted. unfold sorted in Hsorted.
    by rewrite Hcmp in Hsorted. }
  split; [|split].
  - unfold Sort. rewrite Hfix. by destruct a.
  - unfold Clone, NewSortedStringArrayFrom, NewSortedStringArraySize.
    rewrite copy_fresh, take_ge, Hfix by done.
    destruct a as [safe arr u cmp]. simpl in *. subst cmp.
    unfold with_array, with_unique. simpl. by rewrite negb_involutive.
  - unfold IntArray.Clone, IntArray.NewIntArrayFrom.
    rewrite copy_fresh, take_ge by done.
    destruct ia as [safe arr]. simpl. by rewrite negb_involutive.
Qed.
End sorted_more.

(** ** [Rands] and [PopRands] *)

Section random_picks.
Context {A : Type} `{!ZeroValue A}.
Implicit Types (arr : list A).

Lemma store_middle (done rest : list A) (z x : A) :
  store (done ++ z :: rest) (len done) x = Ret (done ++ x :: rest).
Proof.
  rewrite store_in_range.
  - unfold len. rewrite Nat2Z.id.
    rewrite insert_app_r_alt by done. by rewrite Nat.sub_diag.
  - rewrite len_app. unfold len. simpl. lia.
Qed.

Lemma Rands_loop_picks arr : ∀ (perm : list Z) (k : nat) i size done,
  (1 ≤ k)%nat → (k ≤ length perm)%nat →
  Forall (λ v, 0 ≤ v < len arr) perm →
  len done = i → Z.of_nat k = size - i → size ≤ max_int →
  garray.Rands_loop i perm size arr (done ++ replicate k zero_value)
  = Ret (done ++ ((λ v, default zero_value (arr !! Z.to_nat v))
                    <$> take k perm)).
Proof.
  induction perm as [|v perm IH]; intros k i size done Hk Hlen Hall Hi Hsz Hmax.
  { simpl in Hlen. lia. }
  destruct k as [|k]; [lia|].
  apply Forall_cons in Hall as [Hv Hall].
  destruct (index_in_range arr v Hv) as (x & Hx & Hix).
  pose proof (len_nonneg done).
  cbn [garray.Rands_loop]. rewrite Hix. cbn [mbind outcome_bind].
  cbn [replicate]. rewrite <- Hi, store_middle. cbn [mbind outcome_bind].
  rewrite firstn_cons, fmap_cons, Hx. cbn [default].
  unfold sub. rewrite wrap_id by (unfold min_int, max_int in *; lia).
  destruct (Z.eqb_spec (len done) (size - 1)) as [Hlast|Hmore].
  - assert (k = 0%nat) as -> by lia. by rewrite take_0.
  - rewrite (cons_middle x done (replicate k zero_value)), app_assoc.
    rewrite (IH k (add (len done) 1) size (done ++ [x])); try done; try lia.
    + by rewrite <- app_assoc.
    + simpl in Hlen. lia.
    + unfold add. rewrite wrap_id by (unfold min_int, max_int in *; lia).
      rewrite len_app. unfold len. simpl. lia.
    + unfold add. rewrite wrap_id by (unfold min_int, max_int in *; lia).
      lia.
Qed.

Lemma lookups_seq arr :
  (λ v, default zero_value (arr !! Z.to_nat v)) <$> seqZ 0 (len arr) = arr.
Proof.
  apply list_eq. intros j. rewrite list_lookup_fmap.
  destruct (arr !! j) as [x|] eqn:Hj.
  - pose proof (lookup_lt_Some _ _ _ Hj) as Hlt.
    rewrite (lookup_seqZ_lt 0 (len arr) j) by (unfold len; lia).
    simpl. rewrite Z.add_0_l, Nat2Z.id, Hj. done.
  - apply lookup_ge_None in Hj.
    rewrite lookup_seqZ_ge by (unfold len; lia). done.
Qed.

Lemma Rands_picks arr (size : Z) (perm : list Z) :
  is_Perm perm (len arr) → 1 ≤ size → len arr ≤ max_int →
  ∃ picks, garray.Rands arr size perm = Ret picks ∧
    Rands_result arr size perm picks ∧
    len picks = size `min` len arr ∧
    picks ⊆+ arr ∧
    (len arr ≤ size → picks ≡ₚ arr).
Proof.
  intros Hperm Hsize Hmax.
  pose proof (is_Perm_length perm arr Hperm) as Hlen.
  assert (Forall (λ v, 0 ≤ v < len arr) perm) as Hall.
  { rewrite Forall_forall. intros v Hv. unfold is_Perm in Hperm.
    rewrite Hperm in Hv. apply elem_of_seqZ in Hv. lia. }
  pose proof (len_nonneg arr) as Hnn.
  unfold garray.Rands.
  remember (if len arr <? size then len arr else size) as size' eqn:Hsize'.
  assert (size' = size `min` len arr) as Hmin.
  { subst size'. destruct (Z.ltb_spec (len arr) size); lia. }
  rewrite <- Hmin. clear Hsize'.
  rewrite make_Ret by lia. cbn [mbind outcome_bind].
  remember (λ v, default zero_value (arr !! Z.to_nat v)) as f eqn:Hf.
  assert (garray.Rands_loop 0 perm size' arr
            (replicate (Z.to_nat size') zero_value)
          = Ret (f <$> take (Z.to_nat size') perm)) as Hrun.
  { destruct (decide (size' = 0)) as [Hz|Hnz].
    - assert (perm = []) as ->.
      { apply nil_length_inv. rewrite Hlen. unfold len in *. lia. }
      rewrite Hz. done.
    - subst f.
      apply (Rands_loop_picks arr perm (Z.to_nat size') 0 size' []);
        try done; try lia. unfold len in *. lia. }
  rewrite Hrun. eexists. split; [done|].
  split; [|split; [|split]].
  - unfold Rands_result. rewrite <- Hmin.
    apply Forall2_fmap_l, Forall_Forall2_diag.
    apply Forall_take. eapply Forall_impl; [exact Hall|].
    intros v Hv. simpl.
    destruct (index_in_range arr v Hv) as (x & Hx & Hix).
    by rewrite Hf, Hx.
  - unfold len. rewrite length_fmap, length_take, Hlen. unfold len in *. lia.
  - trans (f <$> seqZ 0 (len arr)); [|by rewrite Hf, lookups_seq].
    apply fmap_submseteq. unfold is_Perm in Hperm. rewrite <- Hperm.
    apply sublist_submseteq, sublist_take.
  - intros Hge. rewrite take_ge by (rewrite Hlen; unfold len in *; lia).
    unfold is_Perm in Hperm. rewrite Hperm, Hf. by rewrite lookups_seq.
Qed.

Lemma PopRands_loop_partitions (intn : nat → Z → Z) :
  is_Intn intn →
  ∀ (k fuel call : nat) i size arr done,
    Z.of_nat k = size - i → (k ≤ fuel)%nat → len done = i →
    Z.of_nat k ≤ len arr → len arr ≤ max_int → size ≤ max_int →
    ∃ picked rest,
      garray.PopRands_loop fuel intn call i size arr
        (done ++ replicate k zero_value)
      = Ret (done ++ picked, rest) ∧
      picked ++ rest ≡ₚ arr ∧ length picked = k ∧
      rest `sublist_of` arr.
Proof.
  intros Hintn.
  induction k as [|k IH]; intros fuel call i size arr done Hk Hfuel Hi Hlen Hmax Hsz.
  { exists [], arr. assert (garray.PopRands_loop fuel intn call i size arr
                              (done ++ replicate 0 zero_value)
                            = Ret (done ++ [], arr)) as ->; [|done].
    destruct fuel; simpl; destruct (Z.ltb_spec i size); try lia; done. }
  destruct fuel as [|fuel]; [lia|].
  pose proof (len_nonneg done).
  cbn [garray.PopRands_loop]. destruct (Z.ltb_spec i size); [|lia].
  destruct (Hintn call (len arr) ltac:(lia)) as [Hlo Hhi].
  remember (intn call (len arr)) as idx eqn:Hidx.
  destruct (index_in_range arr idx ltac:(lia)) as (x & Hx & Hix).
  rewrite Hix. cbn [mbind outcome_bind].
  cbn [replicate]. rewrite <- Hi, store_middle. cbn [mbind outcome_bind].
  rewrite slice_to_take by lia. cbn [mbind outcome_bind].
  rewrite (add_id idx 1) by (unfold min_int, max_int in *; lia).
  rewrite slice_from_in_range by lia. cbn [mbind outcome_bind].
  replace (Z.to_nat (idx + 1)) with (S (Z.to_nat idx)) by lia.
  assert (take (Z.to_nat idx) arr ++ drop (S (Z.to_nat idx)) arr
          = delete (Z.to_nat idx) arr) as Hdel.
  { by rewrite delete_take_drop. }
  rewrite Hdel.
  assert (len (delete (Z.to_nat idx) arr) = len arr - 1) as Hlen'.
  { unfold len. rewrite length_delete by done. unfold len in *. lia. }
  rewrite (cons_middle x done (replicate k zero_value)), app_assoc.
  destruct (IH fuel (S call) (add (len done) 1) size
              (delete (Z.to_nat idx) arr) (done ++ [x]))
    as (picked & rest & -> & Hperm & Hpl & Hsub).
  - unfold add. rewrite wrap_id by (unfold min_int, max_int in *; lia). lia.
  - lia.
  - unfold add. rewrite wrap_id by (unfold min_int, max_int in *; lia).
    rewrite len_app. unfold len. simpl. lia.
  - lia.
  - lia.
  - lia.
  - exists (x :: picked), rest. split; [by rewrite <- app_assoc|].
    split; [|split].
    + simpl. rewrite Hperm. symmetry. by apply delete_Permutation.
    + simpl. lia.
    + etrans; [exact Hsub|]. apply sublist_delete.
Qed.

Lemma PopRands_partitions (intn : nat → Z → Z) arr (size : Z) :
  is_Intn intn → 0 ≤ size → len arr ≤ max_int →
  ∃ out rest, garray.PopRands intn arr size = Ret (out, rest) ∧
    out ++ rest ≡ₚ arr ∧ len out = size `min` len arr ∧
    rest `sublist_of` arr.
Proof.
  intros Hintn Hsize Hmax. pose proof (len_nonneg arr).
  unfold garray.PopRands.
  remember (if len arr <? size then len arr else size) as size' eqn:Hsize'.
  assert (size' = size `min` len arr) as Hmin.
  { subst size'. destruct (Z.ltb_spec (len arr) size); lia. }
  rewrite <- Hmin. clear Hsize'.
  rewrite make_Ret by lia. cbn [mbind outcome_bind].
  destruct (PopRands_loop_partitions intn Hintn (Z.to_nat size')
              (Z.to_nat size') 0%nat 0 size' arr [])
    as (picked & rest & Hrun & Hperm & Hpl & Hsub); try done; try lia.
  simpl app in Hrun. rewrite Hrun.
  exists picked, rest. split; [done|]. split; [done|]. split; [|done].
  unfold len. lia.
Qed.

Lemma PopRands_negative (intn : nat → Z → Z) arr (size : Z) :
  size < 0 → garray.PopRands intn arr size = Panic MakeLenOutOfRange.
Proof.
  intros Hsize. pose proof (len_nonneg arr). unfold garray.PopRands.
  destruct (Z.ltb_spec (len arr) size); [lia|].
  by rewrite make_negative.
Qed.
End random_picks.

(** X21.  [Rands(size)] with [1 <= size] returns, from a container of
    either kind, the elements at the first [min(size, len)] indices of
    the drawn permutation: that many elements, none of them taken more
    often than it occurs in the array, and all of the array, in the
    order of the draw, when [size] is at least the length.  On an empty
    container the result is empty. *)
Theorem Rands_samples_without_replacement
    (ia : IntArray.t) (sa : SortedStringArray.t)
    (size : Z) (perm_i perm_s : list Z) :
  1 ≤ size →
  is_Perm perm_i (len (IntArray.array ia)) →
  len (IntArray.array ia) ≤ max_int →
  is_Perm perm_s (len (SortedStringArray.array sa)) →
  len (SortedStringArray.array sa) ≤ max_int →
  (∃ picks, IntArray.Rands ia size perm_i = Ret picks ∧
     Rands_result (IntArray.array ia) size perm_i picks ∧
     len picks = size `min` len (IntArray.array ia) ∧
     picks ⊆+ IntArray.array ia ∧
     (len (IntArray.array ia) ≤ size → picks ≡ₚ IntArray.array ia)) ∧
  (∃ picks, SortedStringArray.Rands sa size perm_s = Ret picks ∧
     Rands_result (SortedStringArray.array sa) size perm_s picks ∧
     len picks = size `min` len (SortedStringArray.array sa) ∧
     picks ⊆+ SortedStringArray.array sa ∧
     (len (SortedStringArray.array sa) ≤ size →
      picks ≡ₚ SortedStringArray.array sa)).
Proof.
  intros Hsize Hpi Hmi Hps Hms. split.
  - by apply Rands_picks.
  - by apply Rands_picks.
Qed.

(** X22.  [PopRands(size)] with [0 <= size] returns [min(size, len)]
    elements and leaves the others: the elements popped together with
    the array left are a rearrangement of the array before, and what is
    left keeps its order, so a sorted container stays sorted.  A
    negative [size] panics in [make]. *)
Theorem PopRands_partitions_array
    (intn : nat → Z → Z) (ia : IntArray.t) (sa : SortedStringArray.t)
    (size : Z) `{!TotalComparator (SortedStringArray.comparator sa)} :
  is_Intn intn →
  len (IntArray.array ia) ≤ max_int →
  len (SortedStringArray.array sa) ≤ max_int →
  sorted sa →
  (0 ≤ size →
   (∃ out ia', IntArray.PopRands intn ia size = Ret (out, ia') ∧
      out ++ IntArray.array ia' ≡ₚ IntArray.array ia ∧
      len out = size `min` len (IntArray.array ia) ∧
      IntArray.array ia' `sublist_of` IntArray.array ia) ∧
   (∃ out sa', SortedStringArray.PopRands intn sa size = Ret (out, sa') ∧
      out ++ SortedStringArray.array sa' ≡ₚ SortedStringArray.array sa ∧
      len out = size `min` len (SortedStringArray.array sa) ∧
      sorted sa')) ∧
  (size < 0 →
   IntArray.PopRands intn ia size = Panic MakeLenOutOfRange ∧
   SortedStringArray.PopRands intn sa size = Panic MakeLenOutOfRange).
Proof.
  intros Hintn Hmi Hms Hsorted. split.
  - intros Hsize. split.
    + destruct (PopRands_partitions intn (IntArray.array ia) size
                  Hintn Hsize Hmi) as (out & rest & Hrun & Hp & Hl & Hsub).
      unfold IntArray.PopRands. rewrite Hrun. simpl.
      by exists out, (IntArray.with_array ia rest).
    + destruct (PopRands_partitions intn (SortedStringArray.array sa) size
                  Hintn Hsize Hms) as (out & rest & Hrun & Hp & Hl & Hsub).
      unfold SortedStringArray.PopRands. rewrite Hrun. simpl.
      exists out, (SortedStringArray.with_array sa rest).
      split; [done|]. split; [done|]. split; [done|].
      by apply sorted_sublist.
  - intros Hneg. unfold IntArray.PopRands, SortedStringArray.PopRands.
    by rewrite !PopRands_negative.
Qed.

(** ** The further theorems at sample containers *)

Section more_samples.

Lemma sample_dups_is_sorted : sorted sample_dups.
Proof. unfold sorted. simpl. repeat constructor; by vm_compute. Qed.

Lemma sample_perm_ints : is_Perm [2; 0; 1] (len (IntArray.array sample_ints)).
Proof.
  unfold is_Perm. simpl.
  change (seqZ 0 (len [1; 2; 3])) with [0; 1; 2].
  etrans; [apply perm_swap|]. apply perm_skip, perm_swap.
Qed.

Lemma sample_perm_strings :
  is_Perm [1; 0] (len (SortedStringArray.array sample_sorted)).
Proof.
  unfold is_Perm. simpl.
  change (seqZ 0 (len ["b"; "d"]%string)) with [0; 1].
  apply perm_swap.
Qed.

Lemma sample_intn_is_Intn : is_Intn sample_intn.
Proof. intros call n Hn. unfold sample_intn. lia. Qed.

Lemma Remove_deletes_witness :
  IntArray.Remove sample_ints 1
  = Ret (2, IntArray.with_array sample_ints [1; 3]).
Proof.
  destruct (Remove_deletes sample_ints 1) as [Hin _]; [by vm_compute|].
  destruct Hin as (x & Hx & Hrun); [split; by vm_compute|].
  simpl in Hx. injection Hx as <-. exact Hrun.
Defined.

Lemma InsertBefore_then_Remove_witness :
  ∃ a', IntArray.InsertBefore sample_ints 1 9 = Ret a' ∧
        IntArray.array a' = [1; 9; 2; 3] ∧
        IntArray.Get a' 1 = Ret 9 ∧
        IntArray.Remove a' 1 = Ret (9, sample_ints).
Proof.
  destruct (InsertBefore_then_Remove sample_ints 1 9) as [Hin _];
    [by vm_compute|].
  destruct Hin as (a' & Hrun & Harr & Hget & Hrem); [split; by vm_compute|].
  exists a'. split; [exact Hrun|]. split; [exact Harr|].
  split; [exact Hget|exact Hrem].
Defined.

Lemma InsertAfter_is_InsertBefore_next_witness :
  IntArray.InsertAfter sample_ints 1 9
  = IntArray.InsertBefore sample_ints (1 + 1) 9.
Proof.
  destruct (InsertAfter_is_InsertBefore_next sample_ints 1 9) as [Hin _].
  - by vm_compute.
  - split; by vm_compute.
  - apply Hin. split; by vm_compute.
Defined.

Lemma Set_then_Get_witness :
  ∃ a', IntArray.Set_ sample_ints 1 9 = Ret a' ∧
        IntArray.Get a' 1 = Ret 9 ∧
        IntArray.Len a' = IntArray.Len sample_ints.
Proof.
  destruct (Set_then_Get sample_ints 1 9) as [Hin _].
  destruct Hin as (a' & Hrun & Hget & _ & Hlen); [split; by vm_compute|].
  exists a'. split; [exact Hrun|]. split; [exact Hget|exact Hlen].
Defined.

Lemma Push_then_Pop_witness :
  IntArray.PopRight (IntArray.PushRight sample_ints ([4] ++ [5]))
  = Ret (5, IntArray.PushRight sample_ints [4]).
Proof.
  destruct (Push_then_Pop sample_ints 5 [4]) as [Hright _];
    [by vm_compute|].
  exact Hright.
Defined.

Lemma PopLefts_PopRights_split_witness :
  ∃ l r a1 a2,
    IntArray.PopLefts sample_ints 2 = Ret (l, a1) ∧
    IntArray.PushLeft a1 l = sample_ints ∧
    IntArray.PopRights sample_ints 2 = Ret (r, a2) ∧
    IntArray.PushRight a2 r = sample_ints.
Proof.
  destruct (PopLefts_PopRights_split sample_ints 2) as [Hin _].
  - by vm_compute.
  - split; by vm_compute.
  - destruct Hin as (l & r & a1 & a2 & H1 & H2 & H3 & H4 & _);
      [by vm_compute|].
    exists l, r, a1, a2. split; [exact H1|]. split; [exact H2|].
    split; [exact H3|exact H4].
Defined.


Lemma Sum_wraps_witness : IntArray.Sum sample_ints = 6.
Proof.
  destruct (Sum_wraps sample_ints) as (_ & Hexact & _).
  apply Hexact. split; by vm_compute.
Defined.

Lemma Search_first_index_witness :
  ∃ k : nat, IntArray.Search sample_ints 2 = Z.of_nat k ∧
             IntArray.array sample_ints !! k = Some 2.
Proof.
  destruct (Search_first_index sample_ints 2) as (Hin & _);
    [by vm_compute|].
  destruct Hin as (k & Hk & Hat & _); [by right; left|].
  exists k. split; [exact Hk|exact Hat].
Defined.

Lemma CountValues_counts_witness :
  IntArray.CountValues sample_ints !! 2 = Some 1.
Proof.
  destruct (CountValues_counts sample_ints 2) as (Hin & _);
    [by vm_compute|].
  destruct Hin as [Hcount _]; [by right; left|].
  exact Hcount.
Defined.

Lemma Reverse_reverses_witness :
  IntArray.Reverse sample_ints
  = Ret (IntArray.with_array sample_ints [3; 2; 1]).
Proof.
  destruct (Reverse_reverses sample_ints) as [Hrun _]; [by vm_compute|].
  exact Hrun.
Defined.

Lemma Shuffle_permutes_witness :
  ∃ a', IntArray.Shuffle sample_ints [2; 0; 1] = Ret a' ∧
        IntArray.array a' ≡ₚ [1; 2; 3].
Proof.
  destruct (Shuffle_permutes sample_ints [2; 0; 1])
    as (a' & Hrun & Hperm & _); [by vm_compute|exact sample_perm_ints|].
  exists a'. split; [exact Hrun|exact Hperm].
Defined.

Lemma Unique_only_removes_copies_witness :
  ∃ a', IntArray.Unique (IntArray.mk true [1; 2; 1]) = Ret a' ∧
        IntArray.array a' `sublist_of` [1; 2; 1] ∧
        ∀ x, x ∈ IntArray.array a' ↔ x ∈ [1; 2; 1].
Proof.
  destruct (Unique_only_removes_copies (IntArray.mk true [1; 2; 1]))
    as (a' & Hrun & Hsub & Hmem & _); [by vm_compute|].
  exists a'. split; [exact Hrun|]. split; [exact Hsub|exact Hmem].
Defined.

Lemma sorted_Unique_removes_duplicates_witness :
  ∃ a', SortedStringArray.Unique sample_dups = Ret a' ∧
        sorted a' ∧ NoDup (SortedStringArray.array a') ∧
        ∀ x, x ∈ SortedStringArray.array a'
             ↔ x ∈ SortedStringArray.array sample_dups.
Proof.
  destruct (@sorted_Unique_removes_duplicates sample_dups
              strings_Compare_total sample_dups_is_sorted)
    as (a' & Hrun & Hs & Hnd & _ & Hmem & _); [done|by vm_compute|].
  exists a'. split; [exact Hrun|]. split; [exact Hs|].
  split; [exact Hnd|exact Hmem].
Defined.

Lemma SetUnique_dedups_on_switch_on_witness :
  ∃ a', SortedStringArray.SetUnique sample_dups true = Ret a' ∧
        SortedStringArray.unique a' = true ∧
        NoDup (SortedStringArray.array a').
Proof.
  destruct (SetUnique_dedups_on_switch_on sample_dups) as [Hon _].
  destruct Hon as (a' & Hrun & Hu & _ & Hnd & _).
  - exact strings_Compare_total.
  - exact sample_dups_is_sorted.
  - done.
  - by vm_compute.
  - reflexivity.
  - exists a'. split; [exact Hrun|]. split; [exact Hu|exact Hnd].
Defined.




Lemma NewSortedStringArrayFrom_sorts_witness :
  SortedStringArray.array
    (SortedStringArray.NewSortedStringArrayFrom ["b"; "d"]%string [])
  = ["b"; "d"]%string.
Proof.
  destruct (NewSortedStringArrayFrom_sorts ["b"; "d"]%string [] sample_sorted)
    as [(_ & _ & _ & _ & Hfix & _) _].
  apply Hfix. exact sample_sorted_is_sorted.
Defined.

Lemma Clone_resets_unique_witness :
  SortedStringArray.Clone sample_unique
  = SortedStringArray.with_unique sample_unique false.
Proof.
  destruct (Clone_resets_unique sample_unique sample_ints)
    as (_ & Hclone & _); [reflexivity|exact sample_unique_is_sorted|].
  exact Hclone.
Defined.

Lemma Rands_samples_without_replacement_witness :
  ∃ picks, IntArray.Rands sample_ints 2 [2; 0; 1] = Ret picks ∧
           len picks = 2 ∧ picks ⊆+ IntArray.array sample_ints.
Proof.
  destruct (Rands_samples_without_replacement sample_ints sample_sorted 2
              [2; 0; 1] [1; 0])
    as [(picks & Hrun & _ & Hlen & Hsub & _) _].
  - by vm_compute.
  - exact sample_perm_ints.
  - by vm_compute.
  - exact sample_perm_strings.
  - by vm_compute.
  - exists picks. split; [exact Hrun|]. split; [exact Hlen|exact Hsub].
Defined.

Lemma PopRands_partitions_array_witness :
  ∃ out ia', IntArray.PopRands sample_intn sample_ints 2 = Ret (out, ia') ∧
             out ++ IntArray.array ia' ≡ₚ IntArray.array sample_ints.
Proof.
  destruct (@PopRands_partitions_array sample_intn sample_ints sample_sorted 2
              strings_Compare_total sample_intn_is_Intn)
    as [Hin _];
    [by vm_compute|by vm_compute|exact sample_sorted_is_sorted|].
  destruct Hin as [(out & ia' & Hrun & Hperm & _) _]; [by vm_compute|].
  exists out, ia'. split; [exact Hrun|exact Hperm].
Defined.
End more_samples.
